(** * flare-system-client: system-manager client and finalizer routing

    A shallow embedding of
      - [SigningPolicyHash], [sendSignNewSigningPolicy] and
        [VotePowerBlockSelectedListener] of the system-manager contract
        client (package [clients]), and
      - [ProcessSubmissionData] of the finalizer client
        (client/finalizer/finalizer_client.go),
    together with the properties the specification states about them. *)

From Stdlib Require Import ZArith Lia.
From Stdlib.Strings Require Import Byte.
From stdpp Require Import base option list strings pretty gmap.

(** ** Go run-time notions used by the clients *)

Module Go.

(** What a run-time panic carries. *)
Inductive panic_value : Type :=
| SliceBoundsOutOfRange     (* s[lo:hi] with hi > cap(s) or lo > hi *)
| IndexOutOfRange           (* s[i] with i >= len(s) *)
| ArrayConversionTooShort   (* [32]byte(s) with len(s) < 32 *)
| ExplicitPanic (err : string).   (* panic(err) *)

(** A Go call either returns or panics. *)
Inductive exec (A : Type) : Type :=
| Ret (a : A)
| Panic (p : panic_value).
Arguments Ret {A} a.
Arguments Panic {A} p.

#[export] Instance exec_ret : MRet exec := @Ret.
#[export] Instance exec_bind : MBind exec := λ A B f m,
  match m with
  | Ret a => f a
  | Panic p => Panic p
  end.

Definition panics {A} (m : exec A) : Prop := ∃ p, m = Panic p.
Definition returns {A} (m : exec A) : Prop := ∃ a, m = Ret a.

(** Go's [error] interface value; [nil] is [None] where an error is
    optional. *)
Definition error := string.

(** A byte slice: the [len] bytes one can index, followed by the rest of the
    backing array up to [cap].  The language specification bounds a slice
    expression on a slice by the capacity, not by the length ("For slices,
    the upper index bound is the slice capacity cap(a) rather than the
    length"), so the bytes past the length are part of the value. *)
Record slice : Type := Slice {
  elems : list byte;
  spare : list byte
}.

Definition len (s : slice) : nat := length (elems s).
Definition cap (s : slice) : nat := length (elems s) + length (spare s).
Definition backing (s : slice) : list byte := elems s ++ spare s.

(** A slice with no room behind its last byte. *)
Definition of_bytes (bs : list byte) : slice := Slice bs [].

(** [s[lo:hi]] *)
Definition subslice (s : slice) (lo hi : nat) : exec slice :=
  if decide (lo ≤ hi ∧ hi ≤ cap s)
  then Ret (Slice (take (hi - lo) (drop lo (backing s))) (drop hi (backing s)))
  else Panic SliceBoundsOutOfRange.

(** [s[i]] *)
Definition index (s : slice) (i : nat) : exec byte :=
  match elems s !! i with
  | Some b => Ret b
  | None => Panic IndexOutOfRange
  end.

(** [[32]byte(s)] *)
Definition array32 (bs : list byte) : exec (list byte) :=
  if decide (32 ≤ length bs) then Ret (take 32 bs) else Panic ArrayConversionTooShort.

(** [make([]byte, n)] *)
Definition make (n : nat) : list byte := replicate n x00.

Section Append.
(** [append] writes in place when the backing array has room and moves to
    a larger array otherwise.  How much larger is the run time's choice:
    [growslice_spare oldcap newlen] is the room left behind the [newlen]
    bytes of the new array (which the run time clears). *)
Variable growslice_spare : nat → nat → nat.

(** [append(s, bs...)] *)
Definition append (s : slice) (bs : list byte) : slice :=
  if decide (length bs ≤ length (spare s))
  then Slice (elems s ++ bs) (drop (length bs) (spare s))
  else Slice (elems s ++ bs)
             (replicate (growslice_spare (cap s) (len s + length bs)) x00).
End Append.

(** [for i := lo; i < hi; i++ { a = body(i, a) }] *)
Fixpoint for_loop {A} (iters i : nat) (body : nat → A → exec A) (a : A) : exec A :=
  match iters with
  | 0 => Ret a
  | S k => a' ← body i a; for_loop k (S i) body a'
  end.

Definition for_range {A} (lo hi : nat) (body : nat → A → exec A) (a : A) : exec A :=
  for_loop (hi - lo) lo body a.

End Go.

Import Go.

(** ** The system-manager contract client *)

Module SystemManager.

Section Hash.
(** Keccak-256 of a byte string (go-ethereum's [crypto] package). *)
Variable keccak256 : list byte → list byte.
Variable growslice_spare : nat → nat → nat.

(** [crypto.Keccak256(data ...[]byte)]: every argument is written to the
    sponge in turn. *)
Definition Keccak256 (data : list (list byte)) : list byte :=
  keccak256 (concat data).

(** The first statement of [SigningPolicyHash]. *)
Definition pad32 (signingPolicy : slice) : slice :=
  if decide (len signingPolicy mod 32 ≠ 0)
  then append growslice_spare signingPolicy (make (32 - len signingPolicy mod 32))
  else signingPolicy.

Definition SigningPolicyHash (signingPolicy : slice) : exec (list byte) :=
  let signingPolicy := pad32 signingPolicy in
  c0 ← subslice signingPolicy 0 32;
  c1 ← subslice signingPolicy 32 64;
  let hash := Keccak256 [elems c0; elems c1] in
  for_range 2 (len signingPolicy / 32)
    (λ i hash,
       c ← subslice signingPolicy (i * 32) ((i + 1) * 32);
       mret (Keccak256 [hash; elems c]))
    hash.

(** *** The hash as the specification words it (section 4.1.1) *)

(** "Right-pad the input with zero bytes until its length is a multiple
    of 32." *)
Definition zero_pad (bs : list byte) : list byte :=
  bs ++ replicate ((32 - length bs mod 32) mod 32) x00.

(** "chunk indices are 0-based 32-byte slices" *)
Definition chunk (bs : list byte) (i : nat) : list byte :=
  take 32 (drop (32 * i) bs).

(** "H is a fixed 256-bit cryptographic hash function" of its two
    arguments concatenated. *)
Definition H (a b : list byte) : list byte := keccak256 (a ++ b).

(** "hash = H(chunk[0], chunk[1])", then "for each subsequent chunk i from
    2 to the last chunk index: hash = H(hash, chunk[i])", for a padded
    input of [n] chunks. *)
Definition fold_spec (padded : list byte) (n : nat) : list byte :=
  foldl (λ hash i, H hash (chunk padded i)) (H (chunk padded 0) (chunk padded 1))
        (seq 2 (n - 2)).
End Hash.

(** [system.FlareSystemManagerSignature] *)
Record Signature : Type := {
  V : byte;
  R : list byte;   (* [32]byte *)
  S : list byte    (* [32]byte *)
}.

(** The composite literal of [sendSignNewSigningPolicy]:
    [V: hashSignature[0], R: [32]byte(hashSignature[1:33]),
     S: [32]byte(hashSignature[33:65])]. *)
Definition signature_literal (hashSignature : slice) : exec Signature :=
  v ← index hashSignature 0;
  r ← subslice hashSignature 1 33 ≫= λ x, array32 (elems x);
  s ← subslice hashSignature 33 65 ≫= λ x, array32 (elems x);
  mret {| V := v; R := r; S := s |}.

Inductive log_entry : Type :=
| LogInfo (format : string)
| LogWarn (format : string)
| LogError (format : string).

Section Send.
Variable keccak256 : list byte → list byte.
Variable growslice_spare : nat → nat → nat.

(** go-ethereum and the contract binding, as the client calls them. *)
Variables PrivateKey TransactOpts Transaction Chain : Type.
(** [accounts.TextHash]: the hash of the message behind the
    "Ethereum Signed Message" prefix. *)
Variable TextHash : list byte → list byte.
(** [crypto.Sign(digestHash, prv)]; the signature it returns is in the
    [R || S || V] format. *)
Variable Sign : list byte → PrivateKey → slice + error.
(** [FlareSystemManager.SignNewSigningPolicy(opts, rewardEpochId, hash, signature)] *)
Variable contract_SignNewSigningPolicy :
  TransactOpts → Z → list byte → Signature → Chain → (Transaction + error) * Chain.
(** [TxVerifier.WaitUntilMined(from, tx, timeout)], with
    [chain.DefaultTxTimeout] for the timeout. *)
Variable WaitUntilMined : TransactOpts → Transaction → Chain → option error * Chain.

Record SystemManagerContractClient : Type := {
  address : string;
  txOpts : TransactOpts;
  privateKey : PrivateKey
}.

(** What the call did to the outside: the contract calls it made, the
    transactions it waited for and what it logged. *)
Inductive send_event : Type :=
| Submitted (rewardEpochId : Z) (hash : list byte) (signature : Signature)
| Waited (tx : Transaction)
| Logged (l : log_entry).

Definition sendSignNewSigningPolicy (s : SystemManagerContractClient)
    (rewardEpochId : Z) (signingPolicy : slice) (c : Chain)
  : exec (option error * Chain * list send_event) :=
  newSigningPolicyHash ← SigningPolicyHash keccak256 growslice_spare signingPolicy;
  match Sign (TextHash newSigningPolicyHash) (privateKey s) with
  | inr err => mret (Some err, c, [])
  | inl hashSignature =>
    signature ← signature_literal hashSignature;
    hash32 ← array32 newSigningPolicyHash;
    match contract_SignNewSigningPolicy (txOpts s) rewardEpochId hash32 signature c with
    | (inr err, c) => mret (Some err, c, [Submitted rewardEpochId hash32 signature])
    | (inl tx, c) =>
      match WaitUntilMined (txOpts s) tx c with
      | (Some err, c) =>
        mret (Some err, c, [Submitted rewardEpochId hash32 signature; Waited tx])
      | (None, c) =>
        mret (None, c, [Submitted rewardEpochId hash32 signature; Waited tx;
                        Logged (LogInfo "New signing policy sent for epoch %v")])
      end
    end
  end.
End Send.

(** The signature as [crypto.Sign] documents it: [R || S || V]. *)
Definition rsv (r s : list byte) (v : byte) : slice := of_bytes (r ++ s ++ [v]).

(** [utils.Epoch] *)
Record Epoch : Type := {
  Start : Z;    (* Unix seconds *)
  Period : Z    (* seconds *)
}.

Section Listener.
Variables Log ChainLog VotePowerBlockSelected MetaData : Type.
(** [chain.EventIDFromMetadata] *)
Variable EventIDFromMetadata : MetaData → string → string + error.
Variable FlareSystemManagerMetaData : MetaData.
(** [shared.ConvertDatabaseLogToChainLog] and the binding's
    [ParseVotePowerBlockSelected] *)
Variable ConvertDatabaseLogToChainLog : Log → ChainLog + error.
Variable ParseVotePowerBlockSelected : ChainLog → VotePowerBlockSelected + error.
(** [Epoch.EpochIndex] of a Unix time and [Epoch.StartTime] of an epoch
    index, as Unix seconds. *)
Variable EpochIndex : Epoch → Z → Z.
Variable StartTime : Epoch → Z → Z.

Definition parseVotePowerBlockSelectedEvent (dbLog : Log)
  : VotePowerBlockSelected + error :=
  match ConvertDatabaseLogToChainLog dbLog with
  | inr err => inr err
  | inl contractLog => ParseVotePowerBlockSelected contractLog
  end.

(** What the outside world answers at one tick of the ticker: the clock,
    and the log store ([database.FetchLogsByAddressAndTopic0] on the
    store as it is then). *)
Record tick : Type := {
  clock : Z;
  FetchLogsByAddressAndTopic0 : string → string → Z → Z → list Log + error
}.

Inductive listener_event : Type :=
| Fetched (address topic0 : string) (from to : Z)
| Sent (data : VotePowerBlockSelected)        (* out <- data *)
| ListenerLogged (l : log_entry).

(** The variables of the goroutine that live across iterations. *)
Record loop_state : Type := {
  eventRangeStart : Z
}.

(** One iteration of the [for] loop, after [<-ticker.C].  [last logs] is
    [logs[len(logs)-1]] under [len(logs) > 0].  The send on [out] is
    taken by a consumer that is ready. *)
Definition iteration (address topic0 : string) (st : loop_state) (t : tick)
  : loop_state * list listener_event :=
  let now := clock t in
  let fetched := Fetched address topic0 (eventRangeStart st) now in
  match FetchLogsByAddressAndTopic0 t address topic0 (eventRangeStart st) now with
  | inr err => (st, [fetched; ListenerLogged (LogError "Error fetching logs %v")])
  | inl logs =>
    match last logs with
    | Some l =>
      match parseVotePowerBlockSelectedEvent l with
      | inr err =>
        (st, [fetched;
              ListenerLogged (LogError "Error parsing VotePowerBlockSelected event %v")])
      | inl powerBlockData => (st, [fetched; Sent powerBlockData])
      end
    | None => (st, [fetched])
    end
  end.

(** The loop over the ticks that have happened so far. *)
Fixpoint loop (address topic0 : string) (st : loop_state) (ticks : list tick)
  : loop_state * list listener_event :=
  match ticks with
  | [] => (st, [])
  | t :: ticks =>
    let '(st, evs) := iteration address topic0 st t in
    let '(st, evs') := loop address topic0 st ticks in
    (st, evs ++ evs')
  end.

(** [startedAt] is [time.Now()] when the goroutine starts. *)
Definition VotePowerBlockSelectedListener (address : string) (epoch : Epoch)
    (startedAt : Z) (ticks : list tick) : exec (list listener_event) :=
  match EventIDFromMetadata FlareSystemManagerMetaData "VotePowerBlockSelected" with
  | inr err => Panic (ExplicitPanic err)
  | inl topic0 =>
    let st := {| eventRangeStart := StartTime epoch (EpochIndex epoch startedAt - 1) |} in
    mret (loop address topic0 st ticks).2
  end.

Definition fetches (evs : list listener_event) : list (Z * Z) :=
  omap (λ e, match e with Fetched _ _ from to => Some (from, to) | _ => None end) evs.

Definition deliveries (evs : list listener_event) : list VotePowerBlockSelected :=
  omap (λ e, match e with Sent d => Some d | _ => None end) evs.
End Listener.

(** The moving window of section 4.2: the [from] of every query after the
    first is the [to] of the query before it. *)
Definition windows_advance (windows : list (Z * Z)) : Prop :=
  ∀ i w w', windows !! i = Some w → windows !! Datatypes.S i = Some w' → w'.1 = w.2.

End SystemManager.

(** ** The finalizer client *)

Module Finalizer.

Import SystemManager.

(** What [submissionStorage.Add] returns beside the error.  The routing loop
    reads [thresholdReached] only. *)
Record addPayloadResult : Type := {
  weightAdded : N;
  totalWeight : N;
  thresholdReached : bool
}.

(** [fmt.Errorf("no signing policy found for voting round %d", round)] *)
Definition no_policy_error (round : N) : error :=
  "no signing policy found for voting round " +:+ pretty round.

Section Routing.
(** The stores of the finalizer package and their operations, as
    [ProcessSubmissionData] calls them. *)
Variables Payload Policy PolicyStorage SubmissionStorage AddError : Type.
Variable GetForVotingRound : PolicyStorage → N → option Policy.
Variable Add :
  SubmissionStorage → Payload → Policy → SubmissionStorage * (addPayloadResult + AddError).

(** An element of [slr.payload]. *)
Record payloadItem : Type := {
  votingRoundId : N;
  payload : Payload
}.

Record submissionListenerResponse : Type := {
  slr_payload : list payloadItem   (* the field [payload] *)
}.

(** The parts of [finalizerClient] the routing touches.  [queueProcessor]
    is the list of items [queueProcessor.Add] was called with, in order;
    [logged] is what went to the logger. *)
Record finalizerClient : Type := {
  signingPolicyStorage : PolicyStorage;
  submissionStorage : SubmissionStorage;
  queueProcessor : list payloadItem;
  logged : list log_entry
}.

Definition with_submissionStorage (c : finalizerClient) (st : SubmissionStorage) :=
  {| signingPolicyStorage := signingPolicyStorage c; submissionStorage := st;
     queueProcessor := queueProcessor c; logged := logged c |}.
Definition with_signingPolicyStorage (c : finalizerClient) (ps : PolicyStorage) :=
  {| signingPolicyStorage := ps; submissionStorage := submissionStorage c;
     queueProcessor := queueProcessor c; logged := logged c |}.
Definition log (c : finalizerClient) (l : log_entry) :=
  {| signingPolicyStorage := signingPolicyStorage c;
     submissionStorage := submissionStorage c;
     queueProcessor := queueProcessor c; logged := logged c ++ [l] |}.
Definition queueProcessor_Add (c : finalizerClient) (item : payloadItem) :=
  {| signingPolicyStorage := signingPolicyStorage c;
     submissionStorage := submissionStorage c;
     queueProcessor := queueProcessor c ++ [item]; logged := logged c |}.

(** [for _, payloadItem := range slr.payload { ... }; return nil] *)
Fixpoint range_payload (c : finalizerClient) (items : list payloadItem)
  : finalizerClient * option error :=
  match items with
  | [] => (c, None)
  | payloadItem :: items =>
    match GetForVotingRound (signingPolicyStorage c) (votingRoundId payloadItem) with
    | None => (c, Some (no_policy_error (votingRoundId payloadItem)))
    | Some sp =>
      match Add (submissionStorage c) (payload payloadItem) sp with
      | (st, inr err) =>
        (* Error is non-fatal, skip this submission *)
        range_payload (log (with_submissionStorage c st)
                           (LogWarn "Error adding submission %v")) items
      | (st, inl addResult) =>
        let c := with_submissionStorage c st in
        if thresholdReached addResult
        then range_payload
               (queueProcessor_Add
                  (log c (LogInfo "Threshold reached for voting round %d"))
                  payloadItem) items
        else range_payload c items
      end
    end
  end.

Definition ProcessSubmissionData (c : finalizerClient) (slr : submissionListenerResponse)
  : finalizerClient * option error :=
  range_payload c (slr_payload slr).
End Routing.

Arguments votingRoundId {Payload} _.
Arguments payload {Payload} _.
Arguments slr_payload {Payload} _.
Arguments signingPolicyStorage {Payload PolicyStorage SubmissionStorage} _.
Arguments submissionStorage {Payload PolicyStorage SubmissionStorage} _.
Arguments queueProcessor {Payload PolicyStorage SubmissionStorage} _.
Arguments logged {Payload PolicyStorage SubmissionStorage} _.

(** *** The stores, from the specification (sections 3, 4.3 and 4.4) *)

(** Modelled from the spec: the SigningPolicy record of section 3; the
    finalizer package's [signingPolicy] type is not among the sources. *)
Record signingPolicy : Type := {
  rewardEpochId : N;
  startVotingRoundId : N;
  signerWeights : gmap string N;
  rawBytes : list byte;
  hash : list byte
}.

(** Modelled from the spec: the SubmissionItem record of section 3, which is
    what [payloadItem.payload] carries. *)
Record SubmissionItem : Type := {
  item_votingRoundId : N;
  signerAddress : string;
  payloadBytes : list byte;
  signature : list byte
}.

(** Modelled from the spec: the VotingRoundAggregate record of section 3. *)
Record VotingRoundAggregate : Type := {
  agg_votingRoundId : N;
  submittedWeight : N;
  seenSigners : gset string;
  agg_thresholdReached : bool;
  finalized : bool
}.

Module signingPolicyStorage.
(** Modelled from the spec: the Signing Policy Store of section 4.3, whose
    code is not among the sources.  The policies are kept in the order of
    their start voting rounds. *)
Definition t : Type := list signingPolicy.

(** Modelled from the spec: the store before any policy has arrived. *)
Definition new : t := [].

(** Modelled from the spec: "inserts a policy, keyed by its
    start-voting-round, maintaining an order usable for interval lookup";
    a policy with the same key is overwritten. *)
Fixpoint Add (s : t) (p : signingPolicy) : t :=
  match s with
  | [] => [p]
  | q :: s' =>
    if decide (startVotingRoundId p < startVotingRoundId q)%N then p :: q :: s'
    else if decide (startVotingRoundId p = startVotingRoundId q) then p :: s'
    else q :: Add s' p
  end.

(** Modelled from the spec: "returns the policy whose range contains
    round", the range of a policy being
    [[startVotingRoundId, nextPolicy.startVotingRoundId)]; absent below the
    earliest start. *)
Fixpoint GetForVotingRound (s : t) (round : N) : option signingPolicy :=
  match s with
  | [] => None
  | p :: s' =>
    if decide (round < startVotingRoundId p)%N then None
    else match GetForVotingRound s' round with
         | Some q => Some q
         | None => Some p
         end
  end.
End signingPolicyStorage.

Module submissionStorage.
Inductive AddError : Type := UnknownSigner | DuplicateSubmission.

(** Modelled from the spec: the Submission Aggregator of section 4.4,
    whose code is not among the sources.  [majority] is the configured
    fraction [(num, den)] of the policy's total weight that a round has to
    exceed. *)
Record t : Type := {
  majority : N * N;
  aggregates : gmap N VotingRoundAggregate
}.

(** Modelled from the spec: the aggregator before any submission. *)
Definition new (majority : N * N) : t :=
  {| majority := majority; aggregates := ∅ |}.

(** Modelled from the spec: "the policy's total signer weight". *)
Definition policy_weight (sp : signingPolicy) : N :=
  map_fold (λ _ w acc, (w + acc)%N) 0%N (signerWeights sp).

(** Modelled from the spec: the weight is "strictly greater than" the
    configured fraction of the total. *)
Definition exceeds (majority : N * N) (weight total : N) : bool :=
  bool_decide (majority.1 * total < majority.2 * weight)%N.

(** Modelled from the spec: the aggregate of a round, "created lazily on
    first submission for a round". *)
Definition aggregate (s : t) (round : N) : VotingRoundAggregate :=
  default {| agg_votingRoundId := round; submittedWeight := 0;
             seenSigners := ∅; agg_thresholdReached := false;
             finalized := false |}
          (aggregates s !! round).

(** Modelled from the spec: [add(item, policy)].  It fails with
    UnknownSigner and DuplicateSubmission and leaves the aggregate as it
    was then.  The flag of the aggregate "flips exactly once, from false
    to true, never back", and the [thresholdReached] of the result is that
    flag after the call: "once thresholdReached is true it never
    reverts". *)
Definition Add (s : t) (item : SubmissionItem) (sp : signingPolicy)
  : t * (addPayloadResult + AddError) :=
  match signerWeights sp !! signerAddress item with
  | None => (s, inr UnknownSigner)
  | Some w =>
    let agg := aggregate s (item_votingRoundId item) in
    if decide (signerAddress item ∈ seenSigners agg)
    then (s, inr DuplicateSubmission)
    else
      let weight := (submittedWeight agg + w)%N in
      let reached := agg_thresholdReached agg
                     || exceeds (majority s) weight (policy_weight sp) in
      let agg' := {| agg_votingRoundId := item_votingRoundId item;
                     submittedWeight := weight;
                     seenSigners := {[signerAddress item]} ∪ seenSigners agg;
                     agg_thresholdReached := reached;
                     finalized := finalized agg |} in
      ({| majority := majority s;
          aggregates := <[item_votingRoundId item := agg']> (aggregates s) |},
       inl {| weightAdded := w; totalWeight := weight; thresholdReached := reached |})
  end.

(** Modelled from the spec: the [thresholdReached] flag of a round's
    aggregate; a round without aggregate has not reached its threshold. *)
Definition thresholdReached_of (s : t) (round : N) : bool :=
  agg_thresholdReached (aggregate s round).
End submissionStorage.

(** The finalizer client over these stores. *)
Definition client : Type :=
  finalizerClient SubmissionItem signingPolicyStorage.t submissionStorage.t.

Definition item : Type := payloadItem SubmissionItem.

Definition NewFinalizerClient (majority : N * N) : client :=
  {| signingPolicyStorage := signingPolicyStorage.new;
     submissionStorage := submissionStorage.new majority;
     queueProcessor := [];
     logged := [] |}.

Definition Process (c : client) (slr : submissionListenerResponse SubmissionItem)
  : client * option error :=
  ProcessSubmissionData SubmissionItem signingPolicy signingPolicyStorage.t
    submissionStorage.t submissionStorage.AddError
    signingPolicyStorage.GetForVotingRound submissionStorage.Add c slr.

(** What the two listeners of [Run] hand to the client, one at a time: a
    policy for [signingPolicyStorage.Add], or a batch of submissions for
    [ProcessSubmissionData] (whose error goes back to the listener). *)
Inductive delivery : Type :=
| PolicyInitialized (p : signingPolicy)
| Submissions (slr : submissionListenerResponse SubmissionItem).

Definition deliver (c : client) (d : delivery) : client :=
  match d with
  | PolicyInitialized p =>
    with_signingPolicyStorage _ _ _ c (signingPolicyStorage.Add (signingPolicyStorage c) p)
  | Submissions slr => (Process c slr).1
  end.

Definition Run (c : client) (ds : list delivery) : client := foldl deliver c ds.

(** How often a round was handed to [queueProcessor.Add]. *)
Definition enqueued (c : client) (round : N) : nat :=
  length (filter (λ it : item, votingRoundId it = round) (queueProcessor c)).

(** What the routing loop reads from the outcome of [submissionStorage.Add]:
    [err == nil && addResult.thresholdReached]. *)
Definition reported (res : addPayloadResult + submissionStorage.AddError) : bool :=
  match res with
  | inl addResult => thresholdReached addResult
  | inr _ => false
  end.

End Finalizer.

(** ** What a consumer of the listener and a caller of the routing see *)

Module Observed.

Import SystemManager.

Section Listener.
Variables Log ChainLog VotePowerBlockSelected : Type.
Variable ConvertDatabaseLogToChainLog : Log → ChainLog + error.
Variable ParseVotePowerBlockSelected : ChainLog → VotePowerBlockSelected + error.

(** What one tick puts on [out]: the last log of a query that succeeded
    with logs, when it parses. *)
Definition tick_delivery (address topic0 : string) (st : loop_state) (t : tick Log)
  : option VotePowerBlockSelected :=
  match FetchLogsByAddressAndTopic0 Log t address topic0 (eventRangeStart st) (clock Log t) with
  | inr _ => None
  | inl logs =>
    match last logs with
    | None => None
    | Some l =>
      match parseVotePowerBlockSelectedEvent Log ChainLog VotePowerBlockSelected
              ConvertDatabaseLogToChainLog ParseVotePowerBlockSelected l with
      | inl d => Some d
      | inr _ => None
      end
    end
  end.

Definition listener_logs (evs : list (listener_event VotePowerBlockSelected))
  : list log_entry :=
  omap (λ e, match e with ListenerLogged _ l => Some l | _ => None end) evs.
End Listener.

Section Routing.
Variables Payload Policy PolicyStorage SubmissionStorage : Type.
Variable GetForVotingRound : PolicyStorage → N → option Policy.

(** The round of the item has a policy in the store of the client. *)
Definition has_policy
    (c : Finalizer.finalizerClient Payload PolicyStorage SubmissionStorage)
    (it : Finalizer.payloadItem Payload) : Prop :=
  is_Some (GetForVotingRound (Finalizer.signingPolicyStorage c) (Finalizer.votingRoundId it)).
End Routing.

(** The two lines [ProcessSubmissionData] writes to the logger. *)
Definition threshold_info : log_entry := LogInfo "Threshold reached for voting round %d".
Definition add_warning : log_entry := LogWarn "Error adding submission %v".

Definition is_info (l : log_entry) : bool :=
  match l with LogInfo _ => true | _ => false end.

(** The policies among the deliveries of a run, in order. *)
Definition policies (ds : list Finalizer.delivery) : list Finalizer.signingPolicy :=
  omap (λ d, match d with Finalizer.PolicyInitialized p => Some p | _ => None end) ds.

End Observed.

(** ** Construction of the finalizer client *)

Module Startup.

(** [errors.Wrap(err, message)]: the message, a colon and the cause. *)
Definition Wrap (err : error) (message : string) : error := message +:+ ": " +:+ err.

Section New.
Variables ChainConfig EthClient PrivateKey RelayClient SubmissionClient DB : Type.
Variables PolicyStorage SubmissionStorage : Type.

(** The fields of the configuration the constructor reads:
    [Voting.EnabledFinalizer], [ChainConfig()],
    [Credentials.SigningPolicyPrivateKeyFile], [ContractAddresses.Relay] and
    [ContractAddresses.Submission]. *)
Record Config : Type := {
  EnabledFinalizer : bool;
  chainConfig : ChainConfig;
  SigningPolicyPrivateKeyFile : string;
  Relay : string;
  Submission : string
}.

(** [clientContext.ClientContext] *)
Record ClientContext : Type := {
  config : Config;
  DB_of : DB
}.

Variable DialETH : ChainConfig → EthClient + error.
Variable ReadFileToString : string → string + error.
Variable PrivateKeyFromHex : string → PrivateKey + error.
Variable NewRelayContractClient : EthClient → string → PrivateKey → RelayClient + error.
Variable NewSubmissionContractClient : string → SubmissionClient.
Variable newSigningPolicyStorage : PolicyStorage.
Variable newSubmissionStorage : SubmissionStorage.

(** [finalizerClient] with all its fields; the queue processor is given by
    the arguments of [newFinalizerQueueProcessor]. *)
Record finalizerClient : Type := {
  db : DB;
  relayClient : RelayClient;
  submissionClient : SubmissionClient;
  signingPolicyStorage : PolicyStorage;
  submissionStorage : SubmissionStorage;
  queueProcessor : SubmissionStorage * RelayClient
}.

(** The pair is Go's result, a pointer to a [finalizerClient] and an
    [error], with [None] for [nil]. *)
Definition NewFinalizerClient (ctx : ClientContext)
  : option finalizerClient * option error :=
  let cfg := config ctx in
  if negb (EnabledFinalizer cfg) then (None, None)
  else
    let chainCfg := chainConfig cfg in
    match DialETH chainCfg with
    | inr err => (None, Some err)
    | inl ethClient =>
      match ReadFileToString (SigningPolicyPrivateKeyFile cfg) with
      | inr err => (None, Some (Wrap err "error reading sender private key"))
      | inl senderPkString =>
        match PrivateKeyFromHex senderPkString with
        | inr err => (None, Some (Wrap err "error creating sender register tx opts"))
        | inl senderPk =>
          match NewRelayContractClient ethClient (Relay cfg) senderPk with
          | inr err => (None, Some err)
          | inl relayClient =>
            let submissionClient := NewSubmissionContractClient (Submission cfg) in
            let submissionStorage := newSubmissionStorage in
            (Some {| db := DB_of ctx;
                     relayClient := relayClient;
                     signingPolicyStorage := newSigningPolicyStorage;
                     submissionStorage := submissionStorage;
                     submissionClient := submissionClient;
                     queueProcessor := (submissionStorage, relayClient) |},
             None)
          end
        end
      end
    end.
End New.

End Startup.

(** ** Concrete stand-ins for running the definitions *)

Module Sample.

(** A digest of 32 bytes that keeps its input visible: the first 32 bytes,
    zero-filled. *)
Definition first32 (bs : list byte) : list byte := take 32 (bs ++ replicate 32 x00).

(** A run time that allocates exactly what [append] needs. *)
Definition exact_fit (oldcap newlen : nat) : nat := 0.

(** A run time that rounds allocations up to 64 bytes. *)
Definition round_to_64 (oldcap newlen : nat) : nat := 64 - newlen.

(** 70 bytes: three chunks once padded. *)
Definition policy70 : slice := of_bytes (replicate 40 x01 ++ replicate 30 x02).

(** 32 bytes in a backing array of 64. *)
Definition roomy32 : slice := Slice (replicate 32 x01) (replicate 32 x07).

(** 25 bytes in a backing array of 25. *)
Definition tight25 : slice := of_bytes (replicate 25 x01).

(** A signature in the format of [crypto.Sign]: [R] is 32 bytes of 0x11,
    [S] is 32 bytes of 0x22, [V] is 1. *)
Definition r0 : list byte := replicate 32 x11.
Definition s0 : list byte := replicate 32 x22.
Definition v0 : byte := x01.

(** A signer that always returns that signature, a contract call that is
    accepted and a transaction that is mined; the chain counts the calls. *)
Definition sign (digestHash : list byte) (prv : unit) : slice + error :=
  inl (SystemManager.rsv r0 s0 v0).
Definition accept (opts : unit) (rewardEpochId : Z) (hash : list byte)
    (sig : SystemManager.Signature) (c : nat) : (nat + error) * nat :=
  (inl c, Datatypes.S c).
Definition mined (opts : unit) (tx : nat) (c : nat) : option error * nat := (None, c).
Definition system_manager : SystemManager.SystemManagerContractClient unit unit :=
  {| SystemManager.address := "0x01"; SystemManager.txOpts := ();
     SystemManager.privateKey := () |}.

Definition send (rewardEpochId : Z) (signingPolicy : slice) (c : nat) :=
  SystemManager.sendSignNewSigningPolicy first32 exact_fit unit unit nat nat
    first32 sign accept mined system_manager rewardEpochId signingPolicy c.

(** Logs and events are numbers; every log parses to itself. *)
Definition event_id (meta : bool) (name : string) : string + error :=
  if meta then inl name else inr "no such event".
Definition convert (l : nat) : nat + error := inl l.
Definition parse (l : nat) : nat + error := inl l.
Definition epoch_index (e : SystemManager.Epoch) (t : Z) : Z :=
  ((t - SystemManager.Start e) / SystemManager.Period e)%Z.
Definition start_time (e : SystemManager.Epoch) (i : Z) : Z :=
  (SystemManager.Start e + i * SystemManager.Period e)%Z.
Definition epoch : SystemManager.Epoch :=
  {| SystemManager.Start := 0; SystemManager.Period := 50 |}.

(** A store that fails, and a store that holds the given logs. *)
Definition down : SystemManager.tick nat :=
  {| SystemManager.clock := 100;
     SystemManager.FetchLogsByAddressAndTopic0 := λ _ _ _ _, inr "connection refused" |}.
Definition holding (now : Z) (logs : list nat) : SystemManager.tick nat :=
  {| SystemManager.clock := now;
     SystemManager.FetchLogsByAddressAndTopic0 := λ _ _ _ _, inl logs |}.

Definition listen (meta : bool) (startedAt : Z) (ticks : list (SystemManager.tick nat)) :=
  SystemManager.VotePowerBlockSelectedListener nat nat nat bool event_id meta
    convert parse epoch_index start_time "0x01" epoch startedAt ticks.

(** The policy of the end-to-end scenario of section 8: weights 40, 35 and
    25, from voting round 10 on; the threshold is more than half. *)
Definition policy : Finalizer.signingPolicy :=
  {| Finalizer.rewardEpochId := 1; Finalizer.startVotingRoundId := 10;
     Finalizer.signerWeights := {[ "A" := 40%N; "B" := 35%N; "C" := 25%N ]};
     Finalizer.rawBytes := []; Finalizer.hash := [] |}.
Definition half : N * N := (1%N, 2%N).

Definition submission (round : N) (signer : string) : Finalizer.item :=
  {| Finalizer.votingRoundId := round;
     Finalizer.payload :=
       {| Finalizer.item_votingRoundId := round; Finalizer.signerAddress := signer;
          Finalizer.payloadBytes := []; Finalizer.signature := [] |} |}.
Definition batch (items : list Finalizer.item) : Finalizer.delivery :=
  Finalizer.Submissions {| Finalizer.slr_payload := items |}.

(** The client once the policy has arrived. *)
Definition ready : Finalizer.client :=
  Finalizer.Run (Finalizer.NewFinalizerClient half) [Finalizer.PolicyInitialized policy].

End Sample.

(** * Properties *)

Import SystemManager.

(** ** [SigningPolicyHash] *)

Section HashFacts.
Variable keccak256 : list byte → list byte.
Variable growslice_spare : nat → nat → nat.

#[local] Abbreviation pad32 := (pad32 growslice_spare).
#[local] Abbreviation SigningPolicyHash := (SigningPolicyHash keccak256 growslice_spare).

Lemma length_make n : length (make n) = n.
Proof. apply length_replicate. Qed.

Lemma elems_append s bs : elems (append growslice_spare s bs) = elems s ++ bs.
Proof. unfold append. by case_decide. Qed.

Lemma zero_pad_cases bs :
  zero_pad bs =
  bs ++ replicate (if decide (length bs mod 32 = 0) then 0 else 32 - length bs mod 32) x00.
Proof.
  unfold zero_pad. f_equal. f_equal.
  pose proof (Nat.mod_upper_bound (length bs) 32 ltac:(lia)) as Hlt.
  case_decide as Hm.
  - rewrite Hm. reflexivity.
  - apply Nat.mod_small. lia.
Qed.

Lemma elems_pad32 s : elems (pad32 s) = zero_pad (elems s).
Proof.
  rewrite zero_pad_cases. unfold SystemManager.pad32, len.
  case_decide as Hm.
  - rewrite elems_append. rewrite decide_False by done. reflexivity.
  - rewrite decide_True by lia. simpl. by rewrite app_nil_r.
Qed.

Lemma length_zero_pad bs :
  length (zero_pad bs) mod 32 = 0 ∧ length bs ≤ length (zero_pad bs) < length bs + 32.
Proof.
  rewrite zero_pad_cases, length_app, length_replicate.
  pose proof (Nat.mod_upper_bound (length bs) 32 ltac:(lia)) as Hlt.
  pose proof (Nat.div_mod_eq (length bs) 32) as Hdm.
  case_decide as Hm.
  - rewrite Nat.add_0_r. lia.
  - split; [|lia].
    replace (length bs + (32 - length bs mod 32))
      with ((length bs / 32 + 1) * 32) by lia.
    apply Nat.Div0.mod_mul.
Qed.

Lemma len_le_cap s : len s ≤ cap s.
Proof. unfold len, cap. lia. Qed.

(** A slice expression that stays within the length reads the visible
    bytes only. *)
Lemma subslice_visible s lo hi :
  lo ≤ hi → hi ≤ len s →
  ∃ c, subslice s lo hi = Ret c ∧ elems c = take (hi - lo) (drop lo (elems s)).
Proof.
  intros Hlo Hhi. unfold subslice.
  pose proof (len_le_cap s).
  rewrite decide_True by lia.
  eexists. split; [reflexivity|]. simpl. unfold backing.
  unfold len in Hhi.
  rewrite drop_app_le by lia.
  rewrite take_app_le; [done|]. rewrite length_drop. lia.
Qed.

Lemma subslice_chunk s i :
  (i + 1) * 32 ≤ len s →
  ∃ c, subslice s (i * 32) ((i + 1) * 32) = Ret c ∧ elems c = chunk (elems s) i.
Proof.
  intros Hi. destruct (subslice_visible s (i * 32) ((i + 1) * 32)) as (c & Hc & Hel);
    [lia|lia|].
  exists c. split; [done|]. rewrite Hel. unfold chunk.
  replace ((i + 1) * 32 - i * 32) with 32 by lia.
  by replace (32 * i) with (i * 32) by lia.
Qed.

Lemma subslice_panics_iff s lo hi :
  panics (subslice s lo hi) ↔ ¬ (lo ≤ hi ∧ hi ≤ cap s).
Proof.
  unfold subslice, panics. case_decide; split.
  - intros [p Hp]. discriminate.
  - done.
  - done.
  - eauto.
Qed.

(** The loop of [SigningPolicyHash] over the chunks [i .. i + iters - 1]. *)
Lemma fold_loop s iters : ∀ i hash,
  (i + iters) * 32 ≤ len s →
  for_loop iters i
    (λ i hash, c ← subslice s (i * 32) ((i + 1) * 32);
               mret (Keccak256 keccak256 [hash; elems c])) hash
  = Ret (foldl (λ hash i, H keccak256 hash (chunk (elems s) i)) hash (seq i iters)).
Proof.
  induction iters as [|k IH]; intros i hash Hlen; [reflexivity|].
  destruct (subslice_chunk s i) as (c & Hc & Hel); [lia|].
  cbn [for_loop seq foldl]. rewrite Hc. cbn [mbind exec_bind mret exec_ret].
  rewrite IH by lia. unfold Keccak256, H. cbn [concat].
  by rewrite Hel, app_nil_r.
Qed.

Lemma SigningPolicyHash_long s n :
  len (pad32 s) = 32 * n → 2 ≤ n →
  SigningPolicyHash s = Ret (fold_spec keccak256 (elems (pad32 s)) n).
Proof.
  intros Hlen Hn. unfold SystemManager.SigningPolicyHash, fold_spec.
  destruct (subslice_chunk (pad32 s) 0) as (c0 & Hc0 & Hel0); [lia|].
  destruct (subslice_chunk (pad32 s) 1) as (c1 & Hc1 & Hel1); [lia|].
  cbn [Nat.mul Nat.add] in Hc0, Hc1.
  cbv zeta. rewrite Hc0. cbn [mbind exec_bind]. rewrite Hc1. cbn [mbind exec_bind].
  unfold for_range. rewrite Hlen.
  replace (32 * n / 32) with n by (symmetry; rewrite Nat.mul_comm; apply Nat.div_mul; lia).
  rewrite fold_loop by lia.
  unfold Keccak256, H. cbn [concat]. by rewrite Hel0, Hel1, app_nil_r.
Qed.

Lemma subslice_in_cap s lo hi :
  lo ≤ hi → hi ≤ cap s →
  subslice s lo hi = Ret (Slice (take (hi - lo) (drop lo (backing s))) (drop hi (backing s))).
Proof. intros. unfold subslice. by rewrite decide_True by done. Qed.

Lemma subslice_past_cap s lo hi :
  cap s < hi → subslice s lo hi = Panic SliceBoundsOutOfRange.
Proof. intros. unfold subslice. by rewrite decide_False by lia. Qed.

(** The function panics exactly when the padded slice has room for fewer
    than 64 bytes. *)
Lemma SigningPolicyHash_panics s :
  panics (SigningPolicyHash s) ↔ cap (pad32 s) < 64.
Proof.
  destruct (length_zero_pad (elems s)) as [Hmod _].
  rewrite <- elems_pad32 in Hmod. fold (len (pad32 s)) in Hmod.
  pose proof (len_le_cap (pad32 s)) as Hcap.
  pose proof (Nat.div_mod_eq (len (pad32 s)) 32) as Hdm.
  unfold SystemManager.SigningPolicyHash. cbv zeta.
  split.
  - intros Hp. destruct (decide (cap (pad32 s) < 64)) as [|Hge]; [done|exfalso].
    destruct Hp as [p Hp]. revert Hp.
    rewrite (subslice_in_cap _ 0 32), (subslice_in_cap _ 32 64) by lia.
    cbn [mbind exec_bind]. unfold for_range.
    destruct (decide (len (pad32 s) / 32 - 2 = 0)) as [->|Hne]; [discriminate|].
    rewrite fold_loop by lia. discriminate.
  - intros Hlt. rewrite (subslice_past_cap _ 32 64) by lia.
    destruct (subslice (pad32 s) 0 32); eexists; reflexivity.
Qed.
Lemma len_pad32_short s : len (pad32 s) < 64 ↔ len s ≤ 32.
Proof.
  unfold len. rewrite elems_pad32.
  destruct (length_zero_pad (elems s)) as [Hmod Hb].
  pose proof (Nat.div_mod_eq (length (zero_pad (elems s))) 32). lia.
Qed.

(** C1: when the zero-padded input has [n >= 2] chunks of 32 bytes,
    [SigningPolicyHash] returns the left fold of section 4.1.1 over the
    chunks of the padded input: [H(chunk 0, chunk 1)], then
    [H(hash, chunk i)] for [i = 2 .. n-1]; for [n = 2] it is
    [H(chunk 0, chunk 1)] itself; and the padding the code appends is
    [32 - len mod 32] zero bytes when [len] is not a multiple of 32 and
    nothing otherwise. *)
Theorem SigningPolicyHash_fold (s : slice) (n : nat) :
  length (zero_pad (elems s)) = 32 * n → 2 ≤ n →
  elems (pad32 s)
    = elems s ++ replicate (if decide (len s mod 32 = 0) then 0 else 32 - len s mod 32) x00
  ∧ elems (pad32 s) = zero_pad (elems s)
  ∧ SigningPolicyHash s = Ret (fold_spec keccak256 (zero_pad (elems s)) n)
  ∧ (n = 2 →
     SigningPolicyHash s
     = Ret (H keccak256 (chunk (zero_pad (elems s)) 0) (chunk (zero_pad (elems s)) 1))).
Proof.
  intros Hlen Hn.
  assert (SigningPolicyHash s = Ret (fold_spec keccak256 (zero_pad (elems s)) n)) as Hfold.
  { rewrite <- elems_pad32. apply SigningPolicyHash_long; [|done].
    unfold len. by rewrite elems_pad32. }
  split; [by rewrite elems_pad32, zero_pad_cases|].
  split; [apply elems_pad32|].
  split; [done|].
  intros ->. exact Hfold.
Qed.

(** C9, as the code has it: [SigningPolicyHash] panics exactly when the
    padded slice has a capacity below 64 bytes.  A padded input is
    shorter than 64 bytes exactly when the input has at most 32 bytes;
    such an input panics when no room is left behind its padded bytes,
    and an input that is at least 64 bytes long once padded never
    panics. *)
Theorem SigningPolicyHash_panics_iff_capacity (s : slice) :
  (panics (SigningPolicyHash s) ↔ cap (pad32 s) < 64)
  ∧ (len (pad32 s) < 64 ↔ len s ≤ 32)
  ∧ (spare (pad32 s) = [] → (panics (SigningPolicyHash s) ↔ len s ≤ 32))
  ∧ (64 ≤ len (pad32 s) → returns (SigningPolicyHash s)).
Proof.
  split; [apply SigningPolicyHash_panics|].
  split; [apply len_pad32_short|].
  split.
  - intros Hsp. rewrite SigningPolicyHash_panics, <- len_pad32_short.
    unfold cap, len. rewrite Hsp. simpl. lia.
  - intros Hge. pose proof (len_le_cap (pad32 s)).
    destruct (SigningPolicyHash s) as [h|p] eqn:E; [by eexists|].
    assert (panics (SigningPolicyHash s)) as Hp by (rewrite E; by eexists).
    apply SigningPolicyHash_panics in Hp. lia.
Qed.
End HashFacts.

(** C1 at a policy of 70 bytes (three chunks once padded). *)
Lemma SigningPolicyHash_fold_witness :
  length (zero_pad (elems Sample.policy70)) = 32 * 3 ∧ 2 ≤ 3 ∧
  SigningPolicyHash Sample.first32 Sample.exact_fit Sample.policy70
  = Ret (fold_spec Sample.first32 (zero_pad (elems Sample.policy70)) 3).
Proof.
  split; [reflexivity|]. split; [lia|].
  refine (proj1 (proj2 (proj2
    (SigningPolicyHash_fold Sample.first32 Sample.exact_fit Sample.policy70 3 _ _))));
    [reflexivity | lia].
Defined.

(** C9 as stated fails: 32 bytes in a backing array of 64 do not panic;
    bytes 32 to 63 of the array are hashed as the second chunk. *)
Lemma SigningPolicyHash_roomy32_returns :
  len Sample.roomy32 ≤ 32
  ∧ SigningPolicyHash Sample.first32 Sample.exact_fit Sample.roomy32
    = Ret (Sample.first32 (replicate 32 x01 ++ replicate 32 x07))
  ∧ ¬ panics (SigningPolicyHash Sample.first32 Sample.exact_fit Sample.roomy32).
Proof.
  split; [vm_compute; lia|].
  assert (SigningPolicyHash Sample.first32 Sample.exact_fit Sample.roomy32
          = Ret (Sample.first32 (replicate 32 x01 ++ replicate 32 x07))) as E
    by (vm_compute; reflexivity).
  split; [exact E|]. rewrite E. intros [p Hp]. discriminate.
Qed.

(** The same for 25 bytes in an array of 25, when the run time moves the
    padded bytes to an array of 64; and the panic when it allocates 32. *)
Example SigningPolicyHash_tight25 :
  returns (SigningPolicyHash Sample.first32 Sample.round_to_64 Sample.tight25)
  ∧ SigningPolicyHash Sample.first32 Sample.exact_fit Sample.tight25
    = Panic SliceBoundsOutOfRange
  ∧ SigningPolicyHash Sample.first32 Sample.exact_fit (of_bytes [])
    = Panic SliceBoundsOutOfRange.
Proof.
  split; [eexists; vm_compute; reflexivity|]. split; vm_compute; reflexivity.
Qed.

(** ** [sendSignNewSigningPolicy] *)

Lemma array32_exact bs : length bs = 32 → array32 bs = Ret bs.
Proof.
  intros Hl. unfold array32. rewrite decide_True by lia.
  by rewrite take_ge by lia.
Qed.

(** The composite literal on a slice of at least 65 bytes. *)
Lemma signature_literal_bytes (sig : slice) (b : byte) :
  65 ≤ len sig → elems sig !! 0 = Some b →
  signature_literal sig
  = Ret {| V := b; R := take 32 (drop 1 (elems sig)); S := take 32 (drop 33 (elems sig)) |}.
Proof.
  intros Hlen Hb. unfold signature_literal, index. rewrite Hb.
  destruct (subslice_visible sig 1 33) as (cr & Hr & Her); [lia|lia|].
  destruct (subslice_visible sig 33 65) as (cs & Hs & Hes); [lia|lia|].
  cbn [mbind exec_bind]. rewrite Hr, Hs. cbn [mbind exec_bind].
  rewrite Her, Hes. cbn [Nat.sub].
  rewrite !array32_exact; [done|..];
    rewrite length_take, length_drop; unfold len in Hlen; lia.
Qed.

Lemma rsv_bytes (r s : list byte) (v : byte) :
  length r = 32 → length s = 32 →
  take 32 (drop 1 (r ++ s ++ [v])) = drop 1 r ++ take 1 s
  ∧ take 32 (drop 33 (r ++ s ++ [v])) = drop 1 s ++ [v].
Proof.
  intros Hr Hs. split.
  - rewrite drop_app_le by lia.
    rewrite take_app_ge by (rewrite length_drop; lia).
    rewrite length_drop, Hr. f_equal.
    by rewrite take_app_le by lia.
  - rewrite drop_app_ge by lia. rewrite Hr.
    rewrite drop_app_le by lia.
    apply take_ge. rewrite length_app, length_drop. simpl. lia.
Qed.

Section SendFacts.
Variable keccak256 : list byte → list byte.
Variable growslice_spare : nat → nat → nat.
Variables PrivateKey TransactOpts Transaction Chain : Type.
Variable TextHash : list byte → list byte.
Variable Sign : list byte → PrivateKey → slice + error.
Variable contract_SignNewSigningPolicy :
  TransactOpts → Z → list byte → Signature → Chain → (Transaction + error) * Chain.
Variable WaitUntilMined : TransactOpts → Transaction → Chain → option error * Chain.

#[local] Abbreviation client := (SystemManagerContractClient PrivateKey TransactOpts).
#[local] Abbreviation send :=
  (sendSignNewSigningPolicy keccak256 growslice_spare PrivateKey TransactOpts
     Transaction Chain TextHash Sign contract_SignNewSigningPolicy WaitUntilMined).

(** The call reports success only after the contract call was accepted and
    the transaction was seen mined; what it signed is the text hash of the
    policy hash, and what it submitted is the literal built from the
    signature bytes. *)
Lemma send_success (s : client) rewardEpochId signingPolicy c c' evs :
  send s rewardEpochId signingPolicy c = Ret (None, c', evs) →
  ∃ hash sig signature hash32 tx c1,
    SigningPolicyHash keccak256 growslice_spare signingPolicy = Ret hash
    ∧ Sign (TextHash hash) (privateKey _ _ s) = inl sig
    ∧ signature_literal sig = Ret signature
    ∧ array32 hash = Ret hash32
    ∧ contract_SignNewSigningPolicy (txOpts _ _ s) rewardEpochId hash32 signature c
      = (inl tx, c1)
    ∧ WaitUntilMined (txOpts _ _ s) tx c1 = (None, c')
    ∧ evs = [Submitted _ rewardEpochId hash32 signature; Waited _ tx;
             Logged _ (LogInfo "New signing policy sent for epoch %v")].
Proof.
  unfold sendSignNewSigningPolicy.
  destruct (SigningPolicyHash _ _ _) as [hash|] eqn:Eh; [|discriminate].
  cbn [mbind exec_bind].
  destruct (Sign _ _) as [sig|err] eqn:Es; [|discriminate].
  destruct (signature_literal sig) as [signature|] eqn:El; [|discriminate].
  cbn [mbind exec_bind].
  destruct (array32 hash) as [hash32|] eqn:Ea; [|discriminate].
  cbn [mbind exec_bind].
  destruct (contract_SignNewSigningPolicy _ _ _ _ _) as [[tx|err] c1] eqn:Ec;
    [|discriminate].
  destruct (WaitUntilMined _ _ _) as [[err|] c2] eqn:Ew; [discriminate|].
  intros [= <- <-]. by exists hash, sig, signature, hash32, tx, c1.
Qed.

(** A failure of the signer, of the contract call or of the wait is
    returned as the error of the call. *)
Lemma send_failure (s : client) rewardEpochId signingPolicy c hash :
  SigningPolicyHash keccak256 growslice_spare signingPolicy = Ret hash →
  (∀ err, Sign (TextHash hash) (privateKey _ _ s) = inr err →
     send s rewardEpochId signingPolicy c = Ret (Some err, c, []))
  ∧ (∀ sig signature hash32 err c1,
       Sign (TextHash hash) (privateKey _ _ s) = inl sig →
       signature_literal sig = Ret signature → array32 hash = Ret hash32 →
       contract_SignNewSigningPolicy (txOpts _ _ s) rewardEpochId hash32 signature c
       = (inr err, c1) →
       send s rewardEpochId signingPolicy c
       = Ret (Some err, c1, [Submitted _ rewardEpochId hash32 signature]))
  ∧ (∀ sig signature hash32 tx err c1 c2,
       Sign (TextHash hash) (privateKey _ _ s) = inl sig →
       signature_literal sig = Ret signature → array32 hash = Ret hash32 →
       contract_SignNewSigningPolicy (txOpts _ _ s) rewardEpochId hash32 signature c
       = (inl tx, c1) →
       WaitUntilMined (txOpts _ _ s) tx c1 = (Some err, c2) →
       send s rewardEpochId signingPolicy c
       = Ret (Some err, c2, [Submitted _ rewardEpochId hash32 signature; Waited _ tx])).
Proof.
  intros Eh. unfold sendSignNewSigningPolicy. rewrite Eh. cbn [mbind exec_bind].
  repeat split.
  - by intros err ->.
  - intros sig signature hash32 err c1 -> El Ea Ec.
    rewrite El. cbn [mbind exec_bind]. rewrite Ea. cbn [mbind exec_bind].
    by rewrite Ec.
  - intros sig signature hash32 tx err c1 c2 -> El Ea Ec Ew.
    rewrite El. cbn [mbind exec_bind]. rewrite Ea. cbn [mbind exec_bind].
    by rewrite Ec, Ew.
Qed.

(** C10: when the signer returns the 65 bytes [R || S || V], the
    signature handed to the contract call has [V = sig[0]],
    [R = sig[1:33]] and [S = sig[33:65]]: its [V] is the first byte of
    the signer's [R], its [R] is the rest of that [R] followed by the
    first byte of the signer's [S], and its [S] is the rest of that [S]
    followed by the signer's [V]. *)
Theorem submitted_signature_is_V_first (s : client) rewardEpochId signingPolicy c
    hash (r0 : byte) (r s' : list byte) (v : byte) (room : list byte) :
  SigningPolicyHash keccak256 growslice_spare signingPolicy = Ret hash →
  length hash = 32 →
  length (r0 :: r) = 32 → length s' = 32 →
  Sign (TextHash hash) (privateKey _ _ s) = inl (Slice ((r0 :: r) ++ s' ++ [v]) room) →
  let sig := (r0 :: r) ++ s' ++ [v] in
  ∃ signature result c' evs,
    send s rewardEpochId signingPolicy c
    = Ret (result, c', Submitted _ rewardEpochId hash signature :: evs)
    ∧ sig !! 0 = Some (V signature)
    ∧ R signature = take 32 (drop 1 sig)
    ∧ S signature = take 32 (drop 33 sig)
    ∧ signature = {| V := r0; R := r ++ take 1 s'; S := drop 1 s' ++ [v] |}.
Proof.
  intros Eh Hh Hr Hs Esig. cbv zeta.
  destruct (rsv_bytes (r0 :: r) s' v Hr Hs) as [HR HS].
  assert (signature_literal (Slice ((r0 :: r) ++ s' ++ [v]) room)
          = Ret {| V := r0; R := r ++ take 1 s'; S := drop 1 s' ++ [v] |}) as Hlit.
  { rewrite (signature_literal_bytes _ r0).
    - cbn [elems]. by rewrite HR, HS.
    - unfold len. cbn [elems]. rewrite !length_app. simpl in *. lia.
    - reflexivity. }
  exists {| V := r0; R := r ++ take 1 s'; S := drop 1 s' ++ [v] |}.
  unfold sendSignNewSigningPolicy. rewrite Eh. cbn [mbind exec_bind].
  rewrite Esig, Hlit. cbn [mbind exec_bind].
  rewrite array32_exact by done. cbn [mbind exec_bind].
  cbn [V R S]. rewrite HR, HS.
  destruct (contract_SignNewSigningPolicy _ _ _ _ _) as [[tx|err] c1].
  - destruct (WaitUntilMined _ _ _) as [[err|] c2]; by do 3 eexists.
  - by do 3 eexists.
Qed.
End SendFacts.

(** C10 at a policy of 70 bytes and the signature [r0 || s0 || v0]. *)
Lemma submitted_signature_is_V_first_witness :
  ∃ signature result c' evs,
    Sample.send 7 Sample.policy70 0
    = Ret (result, c', Submitted nat 7 (replicate 32 x01) signature :: evs)
    ∧ elems (rsv Sample.r0 Sample.s0 Sample.v0) !! 0 = Some (V signature)
    ∧ R signature = take 32 (drop 1 (elems (rsv Sample.r0 Sample.s0 Sample.v0)))
    ∧ S signature = take 32 (drop 33 (elems (rsv Sample.r0 Sample.s0 Sample.v0)))
    ∧ signature = {| V := x11; R := replicate 31 x11 ++ take 1 Sample.s0;
                     S := drop 1 Sample.s0 ++ [Sample.v0] |}.
Proof.
  exact (submitted_signature_is_V_first Sample.first32 Sample.exact_fit
           unit unit nat nat Sample.first32 Sample.sign Sample.accept Sample.mined
           Sample.system_manager 7%Z Sample.policy70 0
           (replicate 32 x01) x11 (replicate 31 x11) Sample.s0 Sample.v0 []
           eq_refl eq_refl eq_refl eq_refl eq_refl).
Defined.

(** C6 on the same input: the call succeeds, and the signature it submitted
    is not the signer's [(v, r, s)]. *)
Theorem send_submits_shifted_signature :
  Sample.send 7 Sample.policy70 0
  = Ret (None, 1,
         [Submitted nat 7 (replicate 32 x01)
            {| V := x11; R := replicate 31 x11 ++ [x22]; S := replicate 31 x22 ++ [x01] |};
          Waited nat 0;
          Logged nat (LogInfo "New signing policy sent for epoch %v")])
  ∧ {| V := x11; R := replicate 31 x11 ++ [x22]; S := replicate 31 x22 ++ [x01] |}
    ≠ {| V := Sample.v0; R := Sample.r0; S := Sample.s0 |}.
Proof.
  split; [vm_compute; reflexivity|]. intros [=].
Qed.

(** ** [VotePowerBlockSelectedListener] *)

Section ListenerFacts.
Variables Log ChainLog VotePowerBlockSelected MetaData : Type.
Variable EventIDFromMetadata : MetaData → string → string + error.
Variable FlareSystemManagerMetaData : MetaData.
Variable ConvertDatabaseLogToChainLog : Log → ChainLog + error.
Variable ParseVotePowerBlockSelected : ChainLog → VotePowerBlockSelected + error.
Variable EpochIndex : Epoch → Z → Z.
Variable StartTime : Epoch → Z → Z.

#[local] Abbreviation parse :=
  (parseVotePowerBlockSelectedEvent Log ChainLog VotePowerBlockSelected
     ConvertDatabaseLogToChainLog ParseVotePowerBlockSelected).
#[local] Abbreviation iteration :=
  (iteration Log ChainLog VotePowerBlockSelected
     ConvertDatabaseLogToChainLog ParseVotePowerBlockSelected).
#[local] Abbreviation loop :=
  (loop Log ChainLog VotePowerBlockSelected
     ConvertDatabaseLogToChainLog ParseVotePowerBlockSelected).
#[local] Abbreviation listener :=
  (VotePowerBlockSelectedListener Log ChainLog VotePowerBlockSelected MetaData
     EventIDFromMetadata FlareSystemManagerMetaData
     ConvertDatabaseLogToChainLog ParseVotePowerBlockSelected EpochIndex StartTime).
#[local] Abbreviation fetches := (fetches VotePowerBlockSelected).
#[local] Abbreviation deliveries := (deliveries VotePowerBlockSelected).

(** No iteration assigns [eventRangeStart]. *)
Lemma iteration_state address topic0 st (t : tick Log) :
  (iteration address topic0 st t).1 = st.
Proof.
  unfold SystemManager.iteration.
  destruct (FetchLogsByAddressAndTopic0 _ _ _ _ _ _) as [logs|err]; [|done].
  destruct (last logs) as [l|]; [|done].
  by destruct (parse l).
Qed.

Lemma loop_cons address topic0 st (t : tick Log) ticks :
  loop address topic0 st (t :: ticks)
  = (st, (iteration address topic0 st t).2 ++ (loop address topic0 st ticks).2).
Proof.
  revert st t. induction ticks as [|t' ticks IH]; intros st t.
  - cbn [SystemManager.loop]. pose proof (iteration_state address topic0 st t) as Hst.
    destruct (iteration address topic0 st t) as [st' evs]. simpl in *. by subst.
  - cbn [SystemManager.loop] in *.
    pose proof (iteration_state address topic0 st t) as Hst.
    destruct (iteration address topic0 st t) as [st' evs]. simpl in Hst. subst st'.
    specialize (IH st t'). cbn [SystemManager.loop] in IH.
    destruct (iteration address topic0 st t') as [st1 evs1].
    destruct (SystemManager.loop _ _ _ _ _ _ _ st1 ticks) as [st2 evs2].
    injection IH as -> _. reflexivity.
Qed.

Lemma loop_state address topic0 st (ticks : list (tick Log)) :
  (loop address topic0 st ticks).1 = st.
Proof. destruct ticks; [done|]. by rewrite loop_cons. Qed.

Lemma loop_app address topic0 st (before after : list (tick Log)) :
  (loop address topic0 st (before ++ after)).2
  = (loop address topic0 st before).2 ++ (loop address topic0 st after).2.
Proof.
  induction before as [|t before IH]; [done|].
  rewrite <- app_comm_cons, !loop_cons. cbn [snd]. by rewrite IH, app_assoc.
Qed.

Lemma fetches_app evs evs' : fetches (evs ++ evs') = fetches evs ++ fetches evs'.
Proof. apply omap_app. Qed.

Lemma deliveries_app evs evs' :
  deliveries (evs ++ evs') = deliveries evs ++ deliveries evs'.
Proof. apply omap_app. Qed.

(** Each iteration queries the store once, for the window from
    [eventRangeStart] to the clock. *)
Lemma iteration_fetches address topic0 st (t : tick Log) :
  fetches (iteration address topic0 st t).2 = [(eventRangeStart st, clock _ t)].
Proof.
  unfold SystemManager.iteration.
  destruct (FetchLogsByAddressAndTopic0 _ _ _ _ _ _) as [logs|err]; [|done].
  destruct (last logs) as [l|]; [|done].
  by destruct (parse l).
Qed.

Lemma loop_fetches address topic0 st (ticks : list (tick Log)) :
  fetches (loop address topic0 st ticks).2
  = map (λ t, (eventRangeStart st, clock _ t)) ticks.
Proof.
  induction ticks as [|t ticks IH]; [done|].
  rewrite loop_cons. cbn [snd]. by rewrite fetches_app, iteration_fetches, IH.
Qed.

(** C3, as the code has it: on a tick whose query returns a non-empty
    list of logs, only the last log is parsed: it is delivered when it
    parses and nothing is delivered when it does not, so at most one
    event is delivered however many logs the window holds. *)
Theorem iteration_delivers_last_log_only address topic0 st (t : tick Log)
    (logs : list Log) (l : Log) :
  FetchLogsByAddressAndTopic0 _ t address topic0 (eventRangeStart st) (clock _ t)
  = inl (logs ++ [l]) →
  deliveries (iteration address topic0 st t).2
  = match parse l with inl d => [d] | inr _ => [] end
  ∧ length (deliveries (iteration address topic0 st t).2) ≤ 1.
Proof.
  intros Hf. unfold SystemManager.iteration. rewrite Hf, last_snoc.
  destruct (parse l); simpl; split; (done || lia).
Qed.

(** C5, as the code has it: once the topic is known, every query of the
    listener has the same lower bound, the start of the epoch before the
    one the goroutine started in, and the clock at its tick for upper
    bound. *)
Theorem listener_windows_share_start address epoch startedAt
    (ticks : list (tick Log)) topic0 :
  EventIDFromMetadata FlareSystemManagerMetaData "VotePowerBlockSelected" = inl topic0 →
  ∃ evs, listener address epoch startedAt ticks = Ret evs
    ∧ fetches evs
      = map (λ t, (StartTime epoch (EpochIndex epoch startedAt - 1), clock _ t)) ticks.
Proof.
  intros Ht. unfold VotePowerBlockSelectedListener. rewrite Ht.
  eexists. split; [reflexivity|]. by rewrite loop_fetches.
Qed.

(** C7: a tick whose query fails logs the error and delivers nothing; the
    loop goes on with the next tick, which runs its own query and
    delivers the last log it finds when that parses; every tick of the
    run has its query, and the run delivers what it would have delivered
    without the failed tick. *)
Theorem fetch_error_is_not_fatal address topic0 st
    (before after : list (tick Log)) (t t' : tick Log) err :
  FetchLogsByAddressAndTopic0 _ t address topic0 (eventRangeStart st) (clock _ t)
  = inr err →
  let evs := (loop address topic0 st (before ++ t :: t' :: after)).2 in
  evs = (loop address topic0 st before).2
        ++ [Fetched _ address topic0 (eventRangeStart st) (clock _ t);
            ListenerLogged _ (LogError "Error fetching logs %v")]
        ++ (iteration address topic0 st t').2
        ++ (loop address topic0 st after).2
  ∧ deliveries (iteration address topic0 st t).2 = []
  ∧ fetches evs
    = map (λ t, (eventRangeStart st, clock _ t)) (before ++ t :: t' :: after)
  ∧ deliveries evs = deliveries (loop address topic0 st (before ++ t' :: after)).2
  ∧ (∀ logs l d,
       FetchLogsByAddressAndTopic0 _ t' address topic0 (eventRangeStart st) (clock _ t')
       = inl (logs ++ [l]) →
       parse l = inl d →
       (iteration address topic0 st t').2
       = [Fetched _ address topic0 (eventRangeStart st) (clock _ t'); Sent _ d]).
Proof.
  intros Hf evs.
  assert ((iteration address topic0 st t).2
          = [Fetched _ address topic0 (eventRangeStart st) (clock _ t);
             ListenerLogged _ (LogError "Error fetching logs %v")]) as Hit.
  { unfold SystemManager.iteration. by rewrite Hf. }
  assert (evs = (loop address topic0 st before).2
        ++ [Fetched _ address topic0 (eventRangeStart st) (clock _ t);
            ListenerLogged _ (LogError "Error fetching logs %v")]
        ++ (iteration address topic0 st t').2
        ++ (loop address topic0 st after).2) as Hevs.
  { unfold evs. rewrite loop_app, !loop_cons. cbn [snd]. by rewrite Hit. }
  split; [exact Hevs|]. split; [by rewrite Hit|].
  split; [apply loop_fetches|]. split.
  - rewrite Hevs, loop_app, loop_cons. cbn [snd].
    by rewrite !deliveries_app.
  - intros logs l d Hf' Hp. unfold SystemManager.iteration.
    by rewrite Hf', last_snoc, Hp.
Qed.

(** C8: the listener panics with the error of [EventIDFromMetadata] when
    the topic cannot be computed, before any tick is served; when the
    topic is computed it runs the loop and does not panic. *)
Theorem listener_panics_iff_no_topic address epoch startedAt (ticks : list (tick Log)) :
  (∀ err,
     EventIDFromMetadata FlareSystemManagerMetaData "VotePowerBlockSelected" = inr err →
     listener address epoch startedAt ticks = Panic (ExplicitPanic err))
  ∧ (∀ topic0,
       EventIDFromMetadata FlareSystemManagerMetaData "VotePowerBlockSelected"
       = inl topic0 →
       listener address epoch startedAt ticks
       = Ret (loop address topic0
                {| eventRangeStart := StartTime epoch (EpochIndex epoch startedAt - 1) |}
                ticks).2)
  ∧ (panics (listener address epoch startedAt ticks)
     ↔ ∃ err,
         EventIDFromMetadata FlareSystemManagerMetaData "VotePowerBlockSelected"
         = inr err).
Proof.
  unfold VotePowerBlockSelectedListener.
  destruct (EventIDFromMetadata _ _) as [topic0|err].
  - split; [intros ? [=]|]. split; [by intros ? [= ->]|].
    split; [intros [? [=]] | intros [? [=]]].
  - split; [by intros ? [= ->]|]. split; [intros ? [=]|].
    split; [by eexists | intros _; by eexists].
Qed.
End ListenerFacts.

(** C3 as stated fails: a window of three logs, all of which parse, yields
    one delivered event, the last. *)
Lemma three_logs_one_delivery :
  ∃ evs, Sample.listen true 120 [Sample.holding 100 [1; 2; 3]] = Ret evs
    ∧ deliveries nat evs = [3]
    ∧ length (deliveries nat evs) ≠ length [1; 2; 3].
Proof. eexists. split; [reflexivity|]. split; [reflexivity|]. vm_compute. lia. Qed.

(** C3 (as the code has it) on that window. *)
Lemma iteration_delivers_last_log_only_witness :
  deliveries nat
    (iteration nat nat nat Sample.convert Sample.parse "0x01" "VotePowerBlockSelected"
       {| eventRangeStart := 50 |} (Sample.holding 100 [1; 2; 3])).2 = [3]
  ∧ length (deliveries nat
      (iteration nat nat nat Sample.convert Sample.parse "0x01" "VotePowerBlockSelected"
         {| eventRangeStart := 50 |} (Sample.holding 100 [1; 2; 3])).2) ≤ 1.
Proof.
  exact (iteration_delivers_last_log_only nat nat nat Sample.convert Sample.parse
           "0x01" "VotePowerBlockSelected" {| eventRangeStart := 50 |}
           (Sample.holding 100 [1; 2; 3]) [1; 2] 3 eq_refl).
Defined.

(** C5 as stated fails: with ticks at 100 and 200 the second query starts
    at 50 again, not at 100. *)
Lemma second_window_restarts :
  ∃ evs, Sample.listen true 120 [Sample.holding 100 []; Sample.holding 200 []] = Ret evs
    ∧ fetches nat evs = [(50, 100); (50, 200)]%Z
    ∧ ¬ windows_advance (fetches nat evs).
Proof.
  eexists. split; [reflexivity|]. split; [reflexivity|].
  intros Hadv. specialize (Hadv 0 (50, 100)%Z (50, 200)%Z eq_refl eq_refl).
  discriminate.
Qed.

(** C5 (as the code has it) on those ticks. *)
Lemma listener_windows_share_start_witness :
  ∃ evs, Sample.listen true 120 [Sample.holding 100 []; Sample.holding 200 []] = Ret evs
    ∧ fetches nat evs
      = map (λ t, (Sample.start_time Sample.epoch (Sample.epoch_index Sample.epoch 120 - 1),
                   clock nat t))
            [Sample.holding 100 []; Sample.holding 200 []].
Proof.
  exact (listener_windows_share_start nat nat nat bool Sample.event_id true
           Sample.convert Sample.parse Sample.epoch_index Sample.start_time
           "0x01" Sample.epoch 120%Z [Sample.holding 100 []; Sample.holding 200 []]
           "VotePowerBlockSelected" eq_refl).
Defined.

(** C7 on a run whose second tick finds the store down. *)
Lemma fetch_error_is_not_fatal_witness :
  FetchLogsByAddressAndTopic0 nat Sample.down "0x01" "VotePowerBlockSelected" 50 100
  = inr "connection refused"
  ∧ (loop nat nat nat Sample.convert Sample.parse "0x01" "VotePowerBlockSelected"
       {| eventRangeStart := 50 |}
       ([Sample.holding 90 [1]] ++ Sample.down :: Sample.holding 110 [1; 2] :: [])).2
    = [Fetched nat "0x01" "VotePowerBlockSelected" 50 90; Sent nat 1;
       Fetched nat "0x01" "VotePowerBlockSelected" 50 100;
       ListenerLogged nat (LogError "Error fetching logs %v");
       Fetched nat "0x01" "VotePowerBlockSelected" 50 110; Sent nat 2].
Proof.
  split; [reflexivity|].
  exact (proj1 (fetch_error_is_not_fatal nat nat nat Sample.convert Sample.parse
                  "0x01" "VotePowerBlockSelected" {| eventRangeStart := 50 |}
                  [Sample.holding 90 [1]] [] Sample.down (Sample.holding 110 [1; 2])
                  "connection refused" eq_refl)).
Defined.

(** The listener with and without a topic. *)
Example listener_start :
  Sample.listen false 120 [Sample.holding 100 [1]] = Panic (ExplicitPanic "no such event")
  ∧ Sample.listen true 120 [Sample.holding 100 [1]]
    = Ret [Fetched nat "0x01" "VotePowerBlockSelected" 50 100; Sent nat 1].
Proof. split; reflexivity. Qed.

(** ** [ProcessSubmissionData] *)

Section RoutingFacts.
Variables Payload Policy PolicyStorage SubmissionStorage AddError : Type.
Variable GetForVotingRound : PolicyStorage → N → option Policy.
Variable Add :
  SubmissionStorage → Payload → Policy
  → SubmissionStorage * (Finalizer.addPayloadResult + AddError).

(** The loop returns at the first item whose round has no signing policy:
    the client is left as it is and the items behind are not looked at. *)
Lemma range_payload_returns_without_policy
    (c : Finalizer.finalizerClient Payload PolicyStorage SubmissionStorage)
    (it : Finalizer.payloadItem Payload) (rest : list (Finalizer.payloadItem Payload)) :
  GetForVotingRound (Finalizer.signingPolicyStorage c) (Finalizer.votingRoundId it) = None →
  Finalizer.range_payload Payload Policy PolicyStorage SubmissionStorage AddError
    GetForVotingRound Add c (it :: rest)
  = (c, Some (Finalizer.no_policy_error (Finalizer.votingRoundId it))).
Proof. intros Hnone. cbn [Finalizer.range_payload]. by rewrite Hnone. Qed.
End RoutingFacts.

Section AggregatorFacts.
Import Finalizer.

#[local] Abbreviation flag := submissionStorage.thresholdReached_of.
#[local] Abbreviation route :=
  (range_payload SubmissionItem signingPolicy signingPolicyStorage.t
     submissionStorage.t submissionStorage.AddError
     signingPolicyStorage.GetForVotingRound submissionStorage.Add).

Lemma flag_insert m ags k a round :
  flag {| submissionStorage.majority := m;
          submissionStorage.aggregates := <[k:=a]> ags |} round
  = if decide (k = round) then agg_thresholdReached a
    else flag {| submissionStorage.majority := m;
                 submissionStorage.aggregates := ags |} round.
Proof.
  unfold submissionStorage.thresholdReached_of, submissionStorage.aggregate.
  cbn [submissionStorage.aggregates]. rewrite lookup_insert. by case_decide.
Qed.

(** What [Add] does to the flags: the flag of the item's round is up after
    the call when it was up before or the call reports so, no other flag
    changes, and the call reports [thresholdReached] exactly when it
    accepted the item and the flag of its round is up afterwards. *)
Lemma Add_flag s it sp round :
  flag (submissionStorage.Add s it sp).1 round
  = (if decide (item_votingRoundId it = round)
     then flag s round || reported (submissionStorage.Add s it sp).2
     else flag s round)
  ∧ (reported (submissionStorage.Add s it sp).2 = true
     ↔ (∃ a, (submissionStorage.Add s it sp).2 = inl a)
       ∧ flag (submissionStorage.Add s it sp).1 (item_votingRoundId it) = true).
Proof.
  unfold submissionStorage.Add.
  destruct (signerWeights sp !! signerAddress it) as [w|].
  2:{ cbn. split; [case_decide; [by rewrite orb_false_r|done]|].
      split; [done|]. by intros [[? [=]] _]. }
  case_decide as Hseen.
  { cbn. split; [case_decide; [by rewrite orb_false_r|done]|].
    split; [done|]. by intros [[? [=]] _]. }
  cbn [fst snd reported thresholdReached]. rewrite !flag_insert.
  rewrite (decide_True (P := item_votingRoundId it = item_votingRoundId it)) by done.
  cbn [agg_thresholdReached]. split.
  - case_decide as Hr; [|done]. subst round.
    unfold submissionStorage.thresholdReached_of.
    by destruct (agg_thresholdReached _).
  - split; [intros ->; split; [by eexists|done]|by intros [_ ->]].
Qed.

Lemma Add_monotone s it sp round :
  flag s round = true → flag (submissionStorage.Add s it sp).1 round = true.
Proof.
  intros Hf. destruct (Add_flag s it sp round) as [-> _].
  case_decide; [by rewrite Hf|done].
Qed.

Lemma route_monotone (items : list item) : ∀ (c : client) round,
  flag (submissionStorage c) round = true →
  flag (submissionStorage (route c items).1) round = true.
Proof.
  induction items as [|it items IH]; intros c round Hup; [done|].
  cbn [range_payload].
  destruct (signingPolicyStorage.GetForVotingRound _ _) as [sp|]; [|done].
  pose proof (Add_monotone (submissionStorage c) (payload it) sp round Hup) as Hmono.
  destruct (submissionStorage.Add (submissionStorage c) (payload it) sp)
    as [st [res|err]]; cbn [fst] in Hmono;
    [destruct (thresholdReached res)|]; by apply IH.
Qed.

Lemma Run_monotone (ds : list delivery) : ∀ (c : client) round,
  flag (submissionStorage c) round = true →
  flag (submissionStorage (Run c ds)) round = true.
Proof.
  induction ds as [|d ds IH]; intros c round Hup; [done|].
  unfold Run. cbn [foldl]. fold (Run (deliver c d) ds). apply IH.
  destruct d as [p|slr]; [done|]. by apply route_monotone.
Qed.
End AggregatorFacts.

Section FinalizerClaims.
Import Finalizer.

#[local] Abbreviation flag := submissionStorage.thresholdReached_of.

End FinalizerClaims.



(** * Further properties of the code *)

(** ** Padding and hashing *)

Lemma for_loop_invariant {A} (P : A → Prop) (body : nat → A → exec A) iters :
  ∀ i a r,
    P a → (∀ j a a', P a → body j a = Ret a' → P a') →
    for_loop iters i body a = Ret r → P r.
Proof.
  induction iters as [|k IH]; intros i a r Ha Hbody; cbn [for_loop].
  - by intros [= <-].
  - destruct (body i a) as [a'|] eqn:E; cbn [mbind exec_bind]; [|done].
    apply IH; [by eapply Hbody|done].
Qed.

Lemma zero_pad_zeros (bs : list byte) (j : nat) :
  j ≤ (32 - length bs mod 32) mod 32 →
  zero_pad (bs ++ replicate j x00) = zero_pad bs.
Proof.
  intros Hj. unfold zero_pad. rewrite <- app_assoc, <- replicate_add. do 2 f_equal.
  rewrite length_app, length_replicate.
  pose proof (Nat.mod_upper_bound (length bs) 32 ltac:(lia)) as Hlt.
  pose proof (Nat.div_mod_eq (length bs) 32) as Hdm.
  destruct (decide (length bs mod 32 = 0)) as [Hm|Hm].
  - rewrite Hm in Hj. change ((32 - 0) mod 32) with 0 in Hj.
    replace j with 0 by lia. by rewrite Nat.add_0_r.
  - rewrite (Nat.mod_small (32 - length bs mod 32)) in * by lia.
    destruct (decide (length bs mod 32 + j = 32)) as [Hfull|Hpart].
    + replace (length bs + j) with ((length bs / 32 + 1) * 32) by lia.
      rewrite Nat.Div0.mod_mul. change ((32 - 0) mod 32) with 0. lia.
    + rewrite <- (Nat.mod_unique (length bs + j) 32 (length bs / 32)
                   (length bs mod 32 + j)) by lia.
      rewrite Nat.mod_small by lia. lia.
Qed.

Lemma chunk_app_l (p c : list byte) (i : nat) :
  32 * (i + 1) ≤ length p → chunk (p ++ c) i = chunk p i.
Proof.
  intros Hi. unfold chunk. rewrite drop_app_le by lia.
  apply take_app_le. rewrite length_drop. lia.
Qed.

Lemma chunk_app_r (p c : list byte) (n : nat) :
  length p = 32 * n → length c = 32 → chunk (p ++ c) n = c.
Proof.
  intros Hp Hc. unfold chunk. rewrite <- Hp, drop_app_length.
  apply take_ge. lia.
Qed.

Section HashMore.
Variable keccak256 : list byte → list byte.

Lemma fold_chunks_ext (p p' : list byte) (l : list nat) : ∀ h,
  (∀ i, i ∈ l → chunk p i = chunk p' i) →
  foldl (λ hash i, H keccak256 hash (chunk p i)) h l
  = foldl (λ hash i, H keccak256 hash (chunk p' i)) h l.
Proof.
  induction l as [|i l IH]; intros h Hext; [done|]. cbn [foldl].
  rewrite (Hext i) by set_solver. apply IH. intros j Hj. apply Hext. set_solver.
Qed.

Lemma fold_spec_snoc (p c : list byte) (n : nat) :
  length p = 32 * n → 2 ≤ n → length c = 32 →
  fold_spec keccak256 (p ++ c) (Datatypes.S n) = H keccak256 (fold_spec keccak256 p n) c.
Proof.
  intros Hp Hn Hc. unfold fold_spec.
  replace (Datatypes.S n - 2) with ((n - 2) + 1) by lia.
  rewrite seq_app, foldl_app. cbn [seq foldl].
  replace (2 + (n - 2)) with n by lia.
  rewrite (chunk_app_r p c n) by done.
  rewrite !(chunk_app_l p c) by lia. f_equal.
  apply fold_chunks_ext. intros i [_ Hi]%elem_of_seq.
  apply chunk_app_l. lia.
Qed.

(** The hash of every input that is 64 bytes or longer once padded, by its
    padded form alone. *)
Lemma SigningPolicyHash_padded growslice_spare (s : slice) :
  64 ≤ length (zero_pad (elems s)) →
  SigningPolicyHash keccak256 growslice_spare s
  = Ret (fold_spec keccak256 (zero_pad (elems s)) (length (zero_pad (elems s)) / 32)).
Proof.
  intros Hlen. destruct (length_zero_pad (elems s)) as [Hmod _].
  pose proof (Nat.div_mod_eq (length (zero_pad (elems s))) 32) as Hdm.
  rewrite <- (elems_pad32 growslice_spare).
  apply SigningPolicyHash_long; unfold len; rewrite elems_pad32; lia.
Qed.

(** X1: the padded slice has the least length that is a multiple of 32 and
    not below the input's; its bytes are the input's followed by zeros;
    padding never takes capacity away and padding twice is padding once. *)
Theorem pad32_least_multiple growslice_spare (s : slice) :
  len (pad32 growslice_spare s) mod 32 = 0
  ∧ len s ≤ len (pad32 growslice_spare s) < len s + 32
  ∧ take (len s) (elems (pad32 growslice_spare s)) = elems s
  ∧ drop (len s) (elems (pad32 growslice_spare s))
    = replicate (len (pad32 growslice_spare s) - len s) x00
  ∧ cap s ≤ cap (pad32 growslice_spare s)
  ∧ pad32 growslice_spare (pad32 growslice_spare s) = pad32 growslice_spare s.
Proof.
  destruct (length_zero_pad (elems s)) as [Hmod Hb].
  assert (len (pad32 growslice_spare s) mod 32 = 0) as Hm
    by (unfold len; by rewrite elems_pad32).
  split; [done|]. split; [unfold len; by rewrite elems_pad32|].
  unfold len. rewrite elems_pad32. unfold zero_pad at 1 2.
  split; [by rewrite take_app_length|].
  split.
  { rewrite drop_app_length. f_equal.
    unfold zero_pad. rewrite length_app, length_replicate. lia. }
  split.
  - unfold pad32, append, cap, len. case_decide; [|done].
    case_decide; cbn [elems spare];
      rewrite ?length_app, ?length_drop, ?length_replicate, ?length_make in *; lia.
  - unfold pad32 at 1. by rewrite decide_False by (intros ?; done).
Qed.

(** X2: once the padded input is 64 bytes or longer, the hash is a function
    of the padded bytes alone: two slices with the same padded form have
    the same hash, whatever lies behind their last byte and however the
    run time sizes the array that [append] moves them to. *)
Theorem SigningPolicyHash_same_padded_form g g' (s s' : slice) :
  zero_pad (elems s) = zero_pad (elems s') →
  64 ≤ length (zero_pad (elems s)) →
  SigningPolicyHash keccak256 g s = SigningPolicyHash keccak256 g' s'
  ∧ returns (SigningPolicyHash keccak256 g s).
Proof.
  intros Heq Hlen. rewrite !SigningPolicyHash_padded by (rewrite <- ?Heq; done).
  rewrite Heq. split; [done|by eexists].
Qed.

(** X3: zero bytes at the end of an input that stop at or before the next
    32-byte boundary do not change its hash: the input and the input
    followed by those zeros collide. *)
Theorem SigningPolicyHash_trailing_zeros g g' (s : slice) (j : nat) :
  j ≤ (32 - len s mod 32) mod 32 →
  64 ≤ length (zero_pad (elems s)) →
  SigningPolicyHash keccak256 g' (of_bytes (elems s ++ replicate j x00))
  = SigningPolicyHash keccak256 g s.
Proof.
  intros Hj Hlen.
  rewrite !SigningPolicyHash_padded; cbn [of_bytes elems];
    rewrite ?zero_pad_zeros by done; done.
Qed.

(** X4: the hash folds from the left, one chunk at a time: for an input of
    [n >= 2] whole chunks, the hash of the input followed by one more
    chunk is Keccak-256 of the input's hash and that chunk. *)
Theorem SigningPolicyHash_one_more_chunk g g' (s s' : slice) (c : list byte) (n : nat) :
  len s = 32 * n → 2 ≤ n → length c = 32 → elems s' = elems s ++ c →
  ∃ hash, SigningPolicyHash keccak256 g s = Ret hash
    ∧ SigningPolicyHash keccak256 g' s' = Ret (Keccak256 keccak256 [hash; c]).
Proof.
  intros Hs Hn Hc Hs'. unfold len in Hs.
  assert (zero_pad (elems s) = elems s) as Hpad.
  { rewrite zero_pad_cases, Hs, Nat.mul_comm, Nat.Div0.mod_mul.
    cbn. apply app_nil_r. }
  assert (zero_pad (elems s') = elems s ++ c) as Hpad'.
  { rewrite zero_pad_cases, Hs', length_app, Hs, Hc.
    replace (32 * n + 32) with ((n + 1) * 32) by lia.
    rewrite Nat.Div0.mod_mul. cbn. apply app_nil_r. }
  eexists. split.
  - apply SigningPolicyHash_padded. rewrite Hpad. lia.
  - rewrite SigningPolicyHash_padded by (rewrite Hpad', length_app; lia).
    rewrite Hpad, Hpad', length_app, Hs, Hc.
    replace (32 * n + 32) with (Datatypes.S n * 32) by lia.
    rewrite Nat.div_mul by lia.
    replace (32 * n / 32) with n
      by (symmetry; rewrite Nat.mul_comm; apply Nat.div_mul; lia).
    rewrite fold_spec_snoc by done.
    unfold Keccak256, H. cbn [concat]. by rewrite app_nil_r.
Qed.

(** X5: an input of at most 32 bytes whose padded slice has a capacity of
    64 bytes or more is not rejected: the hash returned is Keccak-256 of
    the first 64 bytes of the backing array, bytes behind the end of the
    slice included, and the loop over the chunks does not run. *)
Theorem SigningPolicyHash_hashes_backing_array g (s : slice) :
  len s ≤ 32 → 64 ≤ cap (pad32 g s) →
  SigningPolicyHash keccak256 g s = Ret (keccak256 (take 64 (backing (pad32 g s)))).
Proof.
  intros Hlen Hcap. apply (len_pad32_short g) in Hlen.
  unfold SigningPolicyHash. cbv zeta.
  rewrite (subslice_in_cap _ 0 32), (subslice_in_cap _ 32 64) by lia.
  cbn [mbind exec_bind elems]. unfold for_range.
  replace (len (pad32 g s) / 32 - 2) with 0.
  2:{ pose proof (Nat.Div0.div_le_mono (len (pad32 g s)) 63 32 ltac:(lia)) as Hd.
      change (63 / 32) with 1 in Hd. lia. }
  cbn [for_loop]. unfold Keccak256. cbn [concat].
  rewrite app_nil_r. cbn [drop Nat.sub].
  by rewrite (take_take_drop _ 32 32).
Qed.

(** X6: when Keccak-256 yields 32 bytes, so does [SigningPolicyHash]
    whenever it returns, and the conversion to [[32]byte] leaves the hash as
    it is. *)
Theorem SigningPolicyHash_32_bytes g (s : slice) (hash : list byte) :
  (∀ bs, length (keccak256 bs) = 32) →
  SigningPolicyHash keccak256 g s = Ret hash →
  length hash = 32 ∧ array32 hash = Ret hash.
Proof.
  intros Hk Hret.
  assert (length hash = 32) as Hlen.
  { revert Hret. unfold SigningPolicyHash. cbv zeta.
    destruct (subslice (pad32 g s) 0 32) as [c0|]; [|done].
    destruct (subslice (pad32 g s) 32 64) as [c1|]; [|done].
    cbn [mbind exec_bind]. unfold for_range.
    apply (for_loop_invariant (λ h, length h = 32)).
    - apply Hk.
    - intros j a a' _. destruct (subslice _ _ _); [|done].
      cbn [mbind exec_bind mret exec_ret]. intros [= <-]. apply Hk. }
  split; [done|]. by apply array32_exact.
Qed.
End HashMore.

Lemma first32_length (bs : list byte) : length (Sample.first32 bs) = 32.
Proof.
  unfold Sample.first32. rewrite length_take, length_app, length_replicate. lia.
Qed.

(** X2 on 70 bytes, once in an array of 70 and once in an array of 75. *)
Lemma SigningPolicyHash_same_padded_form_witness :
  SigningPolicyHash Sample.first32 Sample.exact_fit Sample.policy70
  = SigningPolicyHash Sample.first32 Sample.round_to_64
      (Slice (elems Sample.policy70) (replicate 5 x07))
  ∧ returns (SigningPolicyHash Sample.first32 Sample.exact_fit Sample.policy70).
Proof.
  apply (SigningPolicyHash_same_padded_form Sample.first32 Sample.exact_fit
           Sample.round_to_64 Sample.policy70
           (Slice (elems Sample.policy70) (replicate 5 x07))).
  - reflexivity.
  - vm_compute. lia.
Defined.

(** X3 on 70 bytes and the 96 bytes that end in 26 zeros. *)
Lemma SigningPolicyHash_trailing_zeros_witness :
  SigningPolicyHash Sample.first32 Sample.exact_fit
    (of_bytes (elems Sample.policy70 ++ replicate 26 x00))
  = SigningPolicyHash Sample.first32 Sample.exact_fit Sample.policy70.
Proof.
  apply (SigningPolicyHash_trailing_zeros Sample.first32 Sample.exact_fit
           Sample.exact_fit Sample.policy70 26).
  - vm_compute. lia.
  - vm_compute. lia.
Defined.

(** X4 on two chunks followed by a third. *)
Lemma SigningPolicyHash_one_more_chunk_witness :
  ∃ hash,
    SigningPolicyHash Sample.first32 Sample.exact_fit (of_bytes (replicate 64 x01))
    = Ret hash
    ∧ SigningPolicyHash Sample.first32 Sample.exact_fit
        (of_bytes (replicate 64 x01 ++ replicate 32 x02))
      = Ret (Keccak256 Sample.first32 [hash; replicate 32 x02]).
Proof.
  apply (SigningPolicyHash_one_more_chunk Sample.first32 Sample.exact_fit
           Sample.exact_fit (of_bytes (replicate 64 x01))
           (of_bytes (replicate 64 x01 ++ replicate 32 x02)) (replicate 32 x02) 2).
  - reflexivity.
  - lia.
  - reflexivity.
  - reflexivity.
Defined.

(** X5 on 32 bytes in an array of 64. *)
Lemma SigningPolicyHash_hashes_backing_array_witness :
  SigningPolicyHash Sample.first32 Sample.exact_fit Sample.roomy32
  = Ret (Sample.first32 (take 64 (backing (pad32 Sample.exact_fit Sample.roomy32)))).
Proof.
  apply (SigningPolicyHash_hashes_backing_array Sample.first32 Sample.exact_fit
           Sample.roomy32).
  - vm_compute. lia.
  - vm_compute. lia.
Defined.

(** X6 on 70 bytes. *)
Lemma SigningPolicyHash_32_bytes_witness :
  length (replicate 32 x01) = 32 ∧ array32 (replicate 32 x01) = Ret (replicate 32 x01).
Proof.
  apply (SigningPolicyHash_32_bytes Sample.first32 Sample.exact_fit Sample.policy70
           (replicate 32 x01) first32_length).
  vm_compute. reflexivity.
Defined.

(** ** The signature literal and the sending call *)

(** X7: the composite literal is built exactly for a signature slice of at
    least one byte with a capacity of at least 65; its [V] is then the first
    byte, and its [R] and [S] have 32 bytes each, taken from positions 1 to
    32 and 33 to 64 of the backing array. *)
Theorem signature_literal_returns_iff (sig : slice) :
  (returns (signature_literal sig) ↔ 1 ≤ len sig ∧ 65 ≤ cap sig)
  ∧ (∀ signature, signature_literal sig = Ret signature →
       elems sig !! 0 = Some (V signature)
       ∧ R signature = take 32 (drop 1 (backing sig))
       ∧ S signature = take 32 (drop 33 (backing sig))
       ∧ length (R signature) = 32 ∧ length (S signature) = 32).
Proof.
  unfold signature_literal, index, subslice, returns.
  destruct (elems sig !! 0) as [b|] eqn:Eb; cbn [mbind exec_bind].
  2:{ apply lookup_ge_None in Eb. fold (len sig) in Eb.
      split; [|done]. split; [by intros [? ?]|lia]. }
  apply lookup_lt_Some in Eb. fold (len sig) in Eb.
  pose proof (len_le_cap sig) as Hcap.
  assert (length (backing sig) = cap sig) as Hback
    by (unfold backing, cap; by rewrite length_app).
  destruct (decide (1 ≤ 33 ∧ 33 ≤ cap sig)) as [H33|H33]; cbn [mbind exec_bind elems].
  2:{ split; [|done]. split; [by intros [? ?]|lia]. }
  rewrite array32_exact by (rewrite length_take, length_drop; lia).
  cbn [mbind exec_bind].
  destruct (decide (33 ≤ 65 ∧ 65 ≤ cap sig)) as [H65|H65]; cbn [mbind exec_bind elems].
  2:{ split; [|done]. split; [by intros [? ?]|lia]. }
  rewrite array32_exact by (rewrite length_take, length_drop; lia).
  cbn [mbind exec_bind mret exec_ret]. split.
  - split; [lia|by eexists].
  - intros signature [= <-]. cbn [V R S].
    rewrite !length_take, !length_drop. repeat split; lia.
Qed.

Section SendMore.
Variable keccak256 : list byte → list byte.
Variable growslice_spare : nat → nat → nat.
Variables PrivateKey TransactOpts Transaction Chain : Type.
Variable TextHash : list byte → list byte.
Variable Sign : list byte → PrivateKey → slice + error.
Variable contract_SignNewSigningPolicy :
  TransactOpts → Z → list byte → Signature → Chain → (Transaction + error) * Chain.
Variable WaitUntilMined : TransactOpts → Transaction → Chain → option error * Chain.

#[local] Abbreviation client := (SystemManagerContractClient PrivateKey TransactOpts).
#[local] Abbreviation send :=
  (sendSignNewSigningPolicy keccak256 growslice_spare PrivateKey TransactOpts
     Transaction Chain TextHash Sign contract_SignNewSigningPolicy WaitUntilMined).
#[local] Abbreviation hash_of := (SigningPolicyHash keccak256 growslice_spare).

(** X8: the call returns an error in exactly three ways, and stops where
    the error arose: the signer failed (nothing was submitted and the chain
    is as it was), the contract call failed (nothing was waited for), or
    the wait for the transaction failed; in none of them is the success
    line logged. *)
Theorem send_error_iff (s : client) rewardEpochId signingPolicy c c' err evs :
  send s rewardEpochId signingPolicy c = Ret (Some err, c', evs)
  ↔ ∃ hash, hash_of signingPolicy = Ret hash ∧
      ((Sign (TextHash hash) (privateKey _ _ s) = inr err ∧ c' = c ∧ evs = [])
       ∨ ∃ sig signature hash32,
           Sign (TextHash hash) (privateKey _ _ s) = inl sig
           ∧ signature_literal sig = Ret signature
           ∧ array32 hash = Ret hash32
           ∧ ((contract_SignNewSigningPolicy (txOpts _ _ s) rewardEpochId hash32
                 signature c = (inr err, c')
               ∧ evs = [Submitted _ rewardEpochId hash32 signature])
              ∨ ∃ tx c1,
                  contract_SignNewSigningPolicy (txOpts _ _ s) rewardEpochId hash32
                    signature c = (inl tx, c1)
                  ∧ WaitUntilMined (txOpts _ _ s) tx c1 = (Some err, c')
                  ∧ evs = [Submitted _ rewardEpochId hash32 signature; Waited _ tx])).
Proof.
  unfold sendSignNewSigningPolicy.
  destruct (hash_of signingPolicy) as [hash|] eqn:Eh; cbn [mbind exec_bind].
  2:{ split; [done|]. by intros (? & [=] & _). }
  destruct (Sign _ _) as [sig|e] eqn:Es.
  2:{ split.
      - intros [= -> -> <-]. exists hash. split; [done|]. by left.
      - intros (h & [= <-] & [(Hs & -> & ->)|(? & ? & ? & Hs & _)]);
          rewrite Es in Hs; by simplify_eq. }
  destruct (signature_literal sig) as [signature|] eqn:El; cbn [mbind exec_bind].
  2:{ split; [done|]. intros (h & [= <-] & [(Hs & _)|(? & ? & ? & Hs & Hl & _)]);
        rewrite Es in Hs; simplify_eq. rewrite El in Hl. done. }
  destruct (array32 hash) as [hash32|] eqn:Ea; cbn [mbind exec_bind].
  2:{ split; [done|]. intros (h & [= <-] & [(Hs & _)|(? & ? & ? & Hs & Hl & Ha & _)]);
        rewrite Es in Hs; simplify_eq. rewrite Ea in Ha. done. }
  destruct (contract_SignNewSigningPolicy _ _ _ _ _) as [[tx|e] c1] eqn:Ec.
  - destruct (WaitUntilMined _ _ _) as [[e|] c2] eqn:Ew; cbn [mret exec_ret].
    + split.
      * intros [= -> -> <-]. exists hash. split; [done|]. right.
        exists sig, signature, hash32. repeat (split; [done|]). right. by exists tx, c1.
      * intros (h & [= <-] & [(Hs & _)|(sig' & sg' & h32 & Hs & Hl & Ha & Hc)]);
          rewrite Es in Hs; simplify_eq.
        rewrite El in Hl. rewrite Ea in Ha. simplify_eq.
        destruct Hc as [(Hc & _)|(tx' & c1' & Hc & Hw & ->)];
          rewrite Ec in Hc; simplify_eq. rewrite Ew in Hw. by simplify_eq.
    + split; [done|].
      intros (h & [= <-] & [(Hs & _)|(sig' & sg' & h32 & Hs & Hl & Ha & Hc)]);
        rewrite Es in Hs; simplify_eq.
      rewrite El in Hl. rewrite Ea in Ha. simplify_eq.
      destruct Hc as [(Hc & _)|(tx' & c1' & Hc & Hw & _)];
        rewrite Ec in Hc; simplify_eq. rewrite Ew in Hw. by simplify_eq.
  - cbn [mret exec_ret]. split.
    + intros [= -> -> <-]. exists hash. split; [done|]. right.
      exists sig, signature, hash32. repeat (split; [done|]). by left.
    + intros (h & [= <-] & [(Hs & _)|(sig' & sg' & h32 & Hs & Hl & Ha & Hc)]);
        rewrite Es in Hs; simplify_eq.
      rewrite El in Hl. rewrite Ea in Ha. simplify_eq.
      destruct Hc as [(Hc & ->)|(tx' & c1' & Hc & _)];
        rewrite Ec in Hc; by simplify_eq.
Qed.

End SendMore.

Section SendSuccess.
Variable keccak256 : list byte → list byte.
Variable growslice_spare : nat → nat → nat.
Variables PrivateKey TransactOpts Transaction Chain : Type.
Variable TextHash : list byte → list byte.
Variable Sign : list byte → PrivateKey → slice + error.
Variable contract_SignNewSigningPolicy :
  TransactOpts → Z → list byte → Signature → Chain → (Transaction + error) * Chain.
Variable WaitUntilMined : TransactOpts → Transaction → Chain → option error * Chain.

(** X10: the call returns without error exactly when the policy was hashed,
    the text hash of that hash was signed, the contract call with the
    reward epoch, the hash and the literal was accepted and the wait for
    its transaction ended well; it has then made that one contract call,
    waited for that one transaction and logged the success line, in this
    order, and the chain is as the wait left it. *)
Theorem send_success_iff
    (s : SystemManagerContractClient PrivateKey TransactOpts)
    rewardEpochId signingPolicy c c' evs :
  sendSignNewSigningPolicy keccak256 growslice_spare PrivateKey TransactOpts
    Transaction Chain TextHash Sign contract_SignNewSigningPolicy WaitUntilMined
    s rewardEpochId signingPolicy c = Ret (None, c', evs)
  ↔ ∃ hash sig signature hash32 tx c1,
      SigningPolicyHash keccak256 growslice_spare signingPolicy = Ret hash
      ∧ Sign (TextHash hash) (privateKey _ _ s) = inl sig
      ∧ signature_literal sig = Ret signature
      ∧ array32 hash = Ret hash32
      ∧ contract_SignNewSigningPolicy (txOpts _ _ s) rewardEpochId hash32 signature c
        = (inl tx, c1)
      ∧ WaitUntilMined (txOpts _ _ s) tx c1 = (None, c')
      ∧ evs = [Submitted _ rewardEpochId hash32 signature; Waited _ tx;
               Logged _ (LogInfo "New signing policy sent for epoch %v")].
Proof.
  split; [apply send_success|].
  intros (hash & sig & signature & hash32 & tx & c1 & Eh & Es & El & Ea & Ec & Ew & ->).
  unfold sendSignNewSigningPolicy. rewrite Eh. cbn [mbind exec_bind].
  rewrite Es, El. cbn [mbind exec_bind]. rewrite Ea. cbn [mbind exec_bind].
  by rewrite Ec, Ew.
Qed.
End SendSuccess.

(** ** The listener, tick by tick *)

Section ListenerMore.
Variables Log ChainLog VotePowerBlockSelected : Type.
Variable ConvertDatabaseLogToChainLog : Log → ChainLog + error.
Variable ParseVotePowerBlockSelected : ChainLog → VotePowerBlockSelected + error.

#[local] Abbreviation parse :=
  (parseVotePowerBlockSelectedEvent Log ChainLog VotePowerBlockSelected
     ConvertDatabaseLogToChainLog ParseVotePowerBlockSelected).
#[local] Abbreviation iteration :=
  (iteration Log ChainLog VotePowerBlockSelected
     ConvertDatabaseLogToChainLog ParseVotePowerBlockSelected).
#[local] Abbreviation loop :=
  (loop Log ChainLog VotePowerBlockSelected
     ConvertDatabaseLogToChainLog ParseVotePowerBlockSelected).
#[local] Abbreviation deliveries := (deliveries VotePowerBlockSelected).
#[local] Abbreviation tick_delivery :=
  (Observed.tick_delivery Log ChainLog VotePowerBlockSelected
     ConvertDatabaseLogToChainLog ParseVotePowerBlockSelected).
#[local] Abbreviation listener_logs := (Observed.listener_logs VotePowerBlockSelected).

Lemma iteration_deliveries address topic0 st (t : tick Log) :
  deliveries (iteration address topic0 st t).2
  = option_list (tick_delivery address topic0 st t).
Proof.
  unfold SystemManager.iteration, Observed.tick_delivery.
  destruct (FetchLogsByAddressAndTopic0 _ _ _ _ _ _) as [logs|err]; [|done].
  destruct (last logs) as [l|]; [|done].
  by destruct (parse l).
Qed.

Lemma loop_deliveries address topic0 st (ticks : list (tick Log)) :
  deliveries (loop address topic0 st ticks).2
  = omap (tick_delivery address topic0 st) ticks.
Proof.
  induction ticks as [|t ticks IH]; [done|].
  rewrite loop_cons. cbn [snd].
  rewrite deliveries_app, iteration_deliveries, IH. csimpl.
  by destruct (tick_delivery address topic0 st t).
Qed.

Lemma listener_logs_app (evs evs' : list (listener_event VotePowerBlockSelected)) :
  listener_logs (evs ++ evs') = listener_logs evs ++ listener_logs evs'.
Proof. apply omap_app. Qed.

(** X11: over any run of the loop, what reaches the consumer is, tick by
    tick and in the order of the ticks, the parsed last log of each query
    that succeeded with logs: never more than one event for a tick, and
    none for a tick whose query failed, found nothing or whose last log
    does not parse. *)
Theorem loop_delivers_one_per_tick address topic0 st (ticks : list (tick Log)) :
  deliveries (loop address topic0 st ticks).2
  = omap (tick_delivery address topic0 st) ticks
  ∧ length (deliveries (loop address topic0 st ticks).2) ≤ length ticks
  ∧ (∀ d, d ∈ deliveries (loop address topic0 st ticks).2 →
       ∃ t logs l,
         t ∈ ticks
         ∧ FetchLogsByAddressAndTopic0 _ t address topic0 (eventRangeStart st) (clock _ t)
           = inl (logs ++ [l])
         ∧ parse l = inl d).
Proof.
  rewrite loop_deliveries. split; [done|]. split.
  { clear. induction ticks as [|t ticks IH]; [done|]. csimpl.
    destruct (tick_delivery address topic0 st t); cbn [length]; lia. }
  intros d (t & Ht & Hd)%list_elem_of_omap. exists t.
  unfold Observed.tick_delivery in Hd.
  destruct (FetchLogsByAddressAndTopic0 _ _ _ _ _ _) as [logs|err]; [|done].
  destruct (last logs) as [l|] eqn:El; [|done].
  apply last_Some in El as [logs' ->].
  destruct (parse l) as [d'|] eqn:Ep; [|done].
  injection Hd as ->. by exists logs', l.
Qed.

(** X12: a tick whose last log does not parse is not fatal either: the
    error is logged, nothing is delivered for that tick, and the run
    delivers what it would have delivered without the tick. *)
Theorem parse_error_is_not_fatal address topic0 st
    (before after : list (tick Log)) (t : tick Log) logs l err :
  FetchLogsByAddressAndTopic0 _ t address topic0 (eventRangeStart st) (clock _ t)
  = inl (logs ++ [l]) →
  parse l = inr err →
  (loop address topic0 st (before ++ t :: after)).2
  = (loop address topic0 st before).2
    ++ [Fetched _ address topic0 (eventRangeStart st) (clock _ t);
        ListenerLogged _ (LogError "Error parsing VotePowerBlockSelected event %v")]
    ++ (loop address topic0 st after).2
  ∧ deliveries (loop address topic0 st (before ++ t :: after)).2
    = deliveries (loop address topic0 st (before ++ after)).2.
Proof.
  intros Hf Hp.
  assert ((iteration address topic0 st t).2
          = [Fetched _ address topic0 (eventRangeStart st) (clock _ t);
             ListenerLogged _ (LogError "Error parsing VotePowerBlockSelected event %v")])
    as Hit.
  { unfold SystemManager.iteration. by rewrite Hf, last_snoc, Hp. }
  rewrite !loop_app, loop_cons. cbn [snd]. rewrite Hit.
  split; [done|]. by rewrite !deliveries_app.
Qed.

(** X13: the window never moves on, so a log is not delivered once only:
    while the last log the store returns stays the same, its event is put
    on the channel again at every tick. *)
Theorem unchanged_last_log_is_redelivered address topic0 st
    (ticks : list (tick Log)) (l : Log) d :
  parse l = inl d →
  Forall (λ t, ∃ logs,
            FetchLogsByAddressAndTopic0 _ t address topic0 (eventRangeStart st) (clock _ t)
            = inl (logs ++ [l])) ticks →
  deliveries (loop address topic0 st ticks).2 = replicate (length ticks) d.
Proof.
  intros Hp Hall. rewrite loop_deliveries.
  induction Hall as [|t ticks [logs Hf] _ IH]; [done|].
  csimpl. unfold Observed.tick_delivery at 1.
  rewrite Hf, last_snoc, Hp. by rewrite IH.
Qed.

(** X14: the loop writes to the logger only for ticks that failed: one
    line per tick whose query failed or whose last log did not parse, so
    the number of lines and the number of delivered events together never
    exceed the number of ticks. *)
Theorem loop_logs_or_delivers address topic0 st (ticks : list (tick Log)) :
  length (listener_logs (loop address topic0 st ticks).2)
  + length (deliveries (loop address topic0 st ticks).2)
  ≤ length ticks
  ∧ length (fetches VotePowerBlockSelected (loop address topic0 st ticks).2)
    = length ticks
  ∧ Forall (λ line, line = LogError "Error fetching logs %v"
                    ∨ line = LogError "Error parsing VotePowerBlockSelected event %v")
      (listener_logs (loop address topic0 st ticks).2).
Proof.
  split; [|split].
  - induction ticks as [|t ticks IH]; [done|].
    rewrite loop_cons. cbn [snd]. rewrite listener_logs_app, deliveries_app, !length_app.
    assert (length (listener_logs (iteration address topic0 st t).2)
            + length (deliveries (iteration address topic0 st t).2) ≤ 1) as Hone.
    { unfold SystemManager.iteration.
      destruct (FetchLogsByAddressAndTopic0 _ _ _ _ _ _) as [logs|err]; [|cbn; lia].
      destruct (last logs) as [l|]; [|cbn; lia].
      destruct (parse l); cbn; lia. }
    cbn [length]. lia.
  - by rewrite loop_fetches, length_map.
  - induction ticks as [|t ticks IH]; [by constructor|].
    rewrite loop_cons. cbn [snd]. rewrite listener_logs_app.
    apply Forall_app. split; [|done].
    unfold SystemManager.iteration.
    destruct (FetchLogsByAddressAndTopic0 _ _ _ _ _ _) as [logs|err];
      [|apply Forall_singleton; by left].
    destruct (last logs) as [l|]; [|by constructor].
    destruct (parse l); [by constructor|apply Forall_singleton; by right].
Qed.
End ListenerMore.

(** X12 on a run whose second tick holds a log that does not parse. *)
Lemma parse_error_is_not_fatal_witness :
  let parse_odd := λ l : nat, if Nat.odd l then inl l else inr "bad log" in
  deliveries nat
    (loop nat nat nat Sample.convert parse_odd "0x01" "VotePowerBlockSelected"
       {| eventRangeStart := 50 |}
       ([Sample.holding 90 [1]] ++ Sample.holding 100 [1; 2] :: [Sample.holding 110 [1; 2; 3]])).2
  = deliveries nat
      (loop nat nat nat Sample.convert parse_odd "0x01" "VotePowerBlockSelected"
         {| eventRangeStart := 50 |}
         ([Sample.holding 90 [1]] ++ [Sample.holding 110 [1; 2; 3]])).2.
Proof.
  intros parse_odd.
  exact (proj2 (parse_error_is_not_fatal nat nat nat Sample.convert parse_odd
                  "0x01" "VotePowerBlockSelected" {| eventRangeStart := 50 |}
                  [Sample.holding 90 [1]] [Sample.holding 110 [1; 2; 3]]
                  (Sample.holding 100 [1; 2]) [1] 2 "bad log" eq_refl eq_refl)).
Defined.

(** X13 on three ticks over a store that holds the same two logs. *)
Lemma unchanged_last_log_is_redelivered_witness :
  deliveries nat
    (loop nat nat nat Sample.convert Sample.parse "0x01" "VotePowerBlockSelected"
       {| eventRangeStart := 50 |}
       [Sample.holding 90 [1; 2]; Sample.holding 100 [1; 2]; Sample.holding 110 [1; 2]]).2
  = replicate 3 2.
Proof.
  apply (unchanged_last_log_is_redelivered nat nat nat Sample.convert Sample.parse
           "0x01" "VotePowerBlockSelected" {| eventRangeStart := 50 |}
           [Sample.holding 90 [1; 2]; Sample.holding 100 [1; 2]; Sample.holding 110 [1; 2]]
           2 2 eq_refl).
  repeat constructor; by exists [1].
Defined.

(** ** The routing loop over any stores *)

Section RoutingMore.
Variables Payload Policy PolicyStorage SubmissionStorage AddError : Type.
Variable GetForVotingRound : PolicyStorage → N → option Policy.
Variable Add :
  SubmissionStorage → Payload → Policy
  → SubmissionStorage * (Finalizer.addPayloadResult + AddError).

Import Finalizer.

#[local] Abbreviation client := (finalizerClient Payload PolicyStorage SubmissionStorage).
#[local] Abbreviation route :=
  (range_payload Payload Policy PolicyStorage SubmissionStorage AddError
     GetForVotingRound Add).

#[local] Abbreviation has_policy :=
  (Observed.has_policy Payload Policy PolicyStorage SubmissionStorage GetForVotingRound).

(** What one call leaves behind: the policy store as it was, the queue and
    the log longer. *)
Lemma route_extends (items : list (payloadItem Payload)) : ∀ c : client,
  signingPolicyStorage (route c items).1 = signingPolicyStorage c
  ∧ ∃ q lines,
      queueProcessor (route c items).1 = queueProcessor c ++ q
      ∧ logged (route c items).1 = logged c ++ lines
      ∧ q `sublist_of` items
      ∧ Forall (λ line, line = Observed.threshold_info ∨ line = Observed.add_warning) lines
      ∧ length (filter (λ line, Observed.is_info line = true) lines) = length q
      ∧ length lines ≤ length items.
Proof.
  induction items as [|it items IH]; intros c.
  { split; [done|]. exists [], []. rewrite !app_nil_r. split_and!; by constructor. }
  cbn [range_payload].
  destruct (GetForVotingRound _ _) as [sp|].
  2:{ split; [done|]. exists [], []. rewrite !app_nil_r.
      split_and!; [done|done|apply sublist_nil_l|by constructor|done|cbn; lia]. }
  destruct (Add (submissionStorage c) (payload it) sp) as [st [res|err]].
  - destruct (thresholdReached res).
    + match goal with |- context [route ?c' items] =>
        destruct (IH c') as (Hs & q & lines & Hq & Hl & Hsub & Hall & Hcount & Hlen) end.
      split; [by rewrite Hs|].
      exists (it :: q), (Observed.threshold_info :: lines).
      rewrite Hq, Hl. cbn [queueProcessor logged queueProcessor_Add log with_submissionStorage].
      rewrite <- !app_assoc. split_and!.
      * done.
      * done.
      * by apply sublist_skip.
      * constructor; [by left|done].
      * rewrite filter_cons_True by done. cbn [length]. by rewrite Hcount.
      * cbn [length]. lia.
    + match goal with |- context [route ?c' items] =>
        destruct (IH c') as (Hs & q & lines & Hq & Hl & Hsub & Hall & Hcount & Hlen) end.
      split; [by rewrite Hs|]. exists q, lines. rewrite Hq, Hl.
      split_and!; [done|done|by apply sublist_cons|done|done|cbn [length]; lia].
  - match goal with |- context [route ?c' items] =>
      destruct (IH c') as (Hs & q & lines & Hq & Hl & Hsub & Hall & Hcount & Hlen) end.
    split; [by rewrite Hs|].
    exists q, (Observed.add_warning :: lines).
    rewrite Hq, Hl. cbn [queueProcessor logged log with_submissionStorage].
    rewrite <- !app_assoc. split_and!.
    + done.
    + done.
    + by apply sublist_cons.
    + constructor; [by right|done].
    + rewrite filter_cons_False by (cbn; done). done.
    + cbn [length]. lia.
Qed.

(** X15: the call returns [nil] exactly when the policy store of the client
    has a policy for the round of every item of the batch; an error it
    returns is the one for a missing signing policy, formatted with the
    round of an item of the batch that has no policy. *)
Theorem route_succeeds_iff_policies (c : client) (items : list (payloadItem Payload)) :
  ((route c items).2 = None ↔ Forall (has_policy c) items)
  ∧ (∀ err, (route c items).2 = Some err →
       ∃ it, it ∈ items
             ∧ GetForVotingRound (signingPolicyStorage c) (votingRoundId it) = None
             ∧ err = no_policy_error (votingRoundId it)).
Proof.
  revert c. induction items as [|it items IH]; intros c.
  { split; [split; [by constructor|done]|done]. }
  cbn [range_payload]. unfold Observed.has_policy at 1.
  destruct (GetForVotingRound _ _) as [sp|] eqn:Eg.
  2:{ split.
      - split; [done|].
        intros [Hit _]%Forall_cons. unfold Observed.has_policy in Hit.
        rewrite Eg in Hit. by destruct Hit.
      - intros err [= <-]. exists it. split; [by left|done]. }
  assert (has_policy c it) as Hit by (unfold Observed.has_policy; rewrite Eg; by eexists).
  assert (∀ c' : client, signingPolicyStorage c' = signingPolicyStorage c →
            ((route c' items).2 = None ↔ Forall (has_policy c) (it :: items))
            ∧ (∀ err, (route c' items).2 = Some err →
                 ∃ it', it' ∈ it :: items
                        ∧ GetForVotingRound (signingPolicyStorage c) (votingRoundId it')
                          = None
                        ∧ err = no_policy_error (votingRoundId it'))) as Hstep.
  { intros c' Hc'. destruct (IH c') as [IH1 IH2]. split.
    - rewrite IH1, Forall_cons. unfold Observed.has_policy. rewrite Hc'. tauto.
    - intros err Herr. destruct (IH2 err Herr) as (it' & Hin & Hnone & ->).
      exists it'. rewrite <- Hc'. split; [by right|done]. }
  destruct (Add (submissionStorage c) (payload it) sp) as [st [res|err]];
    [destruct (thresholdReached res)|]; by apply Hstep.
Qed.

(** X16: a batch handed over in two calls is routed like the same batch in
    one call, as long as the first call does not fail; when it fails, the
    second part is what the single call leaves out. *)
Theorem route_app (c : client) (first second : list (payloadItem Payload)) :
  route c (first ++ second)
  = match (route c first).2 with
    | None => route (route c first).1 second
    | Some err => route c first
    end.
Proof.
  revert c. induction first as [|it first IH]; intros c; [done|].
  rewrite <- app_comm_cons. cbn [range_payload].
  destruct (GetForVotingRound _ _) as [sp|]; [|done].
  destruct (Add (submissionStorage c) (payload it) sp) as [st [res|err]];
    [destruct (thresholdReached res)|]; apply IH.
Qed.

(** X17: at the first item whose round has no policy the call stops: the
    items before it have been routed as in a call of their own, the item
    and everything behind it are left out, and the error formatted with the
    round of that item is returned. *)
Theorem route_stops_at_first_missing_policy (c : client)
    (before rest : list (payloadItem Payload)) (it : payloadItem Payload) :
  Forall (has_policy c) before →
  GetForVotingRound (signingPolicyStorage c) (votingRoundId it) = None →
  route c (before ++ it :: rest)
  = ((route c before).1, Some (no_policy_error (votingRoundId it)))
  ∧ (route c before).2 = None.
Proof.
  revert c. induction before as [|b before IH]; intros c Hall Hnone.
  { cbn [app range_payload]. by rewrite Hnone. }
  apply Forall_cons in Hall as [[sp Hb] Hall].
  rewrite <- app_comm_cons. cbn [range_payload]. rewrite Hb.
  assert (∀ c' : client, signingPolicyStorage c' = signingPolicyStorage c →
            route c' (before ++ it :: rest)
            = ((route c' before).1, Some (no_policy_error (votingRoundId it)))
            ∧ (route c' before).2 = None) as Hstep.
  { intros c' Hc'. apply IH; [|by rewrite Hc'].
    eapply Forall_impl; [exact Hall|]. intros x. unfold Observed.has_policy.
    by rewrite Hc'. }
  destruct (Add (submissionStorage c) (payload b) sp) as [st [res|err]];
    [destruct (thresholdReached res)|]; by apply Hstep.
Qed.

(** X18: a call never touches the policy store and never takes anything
    off the queue: the queue afterwards is the queue before followed by
    items of the batch, in the order of the batch, each at most once per
    occurrence. *)
Theorem route_only_appends_batch_items (c : client) (items : list (payloadItem Payload)) :
  signingPolicyStorage (route c items).1 = signingPolicyStorage c
  ∧ ∃ q, queueProcessor (route c items).1 = queueProcessor c ++ q
         ∧ q `sublist_of` items
         ∧ length q ≤ length items.
Proof.
  destruct (route_extends items c) as (Hs & q & lines & Hq & _ & Hsub & _).
  split; [done|]. exists q. split; [done|]. split; [done|]. by apply sublist_length.
Qed.

(** X19: the log of a call grows by one line per routed item at most: the
    threshold line for every item handed to the queue and for no other,
    and the warning for an item the submission store refused. *)
Theorem route_logs_each_enqueue (c : client) (items : list (payloadItem Payload)) :
  ∃ lines,
    logged (route c items).1 = logged c ++ lines
    ∧ Forall (λ line, line = Observed.threshold_info ∨ line = Observed.add_warning) lines
    ∧ length (filter (λ line, Observed.is_info line = true) lines)
      = length (queueProcessor (route c items).1) - length (queueProcessor c)
    ∧ length lines ≤ length items.
Proof.
  destruct (route_extends items c) as (_ & q & lines & Hq & Hl & _ & Hall & Hcount & Hlen).
  exists lines. repeat split; try done.
  rewrite Hq, length_app, Hcount. lia.
Qed.

End RoutingMore.

(** X17 on the client that holds the policy from round 10 on: the item for
    round 5 stops the call after the item before it has been routed. *)
Lemma route_stops_at_first_missing_policy_witness :
  let route :=
    Finalizer.range_payload Finalizer.SubmissionItem Finalizer.signingPolicy
      Finalizer.signingPolicyStorage.t Finalizer.submissionStorage.t
      Finalizer.submissionStorage.AddError
      Finalizer.signingPolicyStorage.GetForVotingRound Finalizer.submissionStorage.Add in
  route Sample.ready
    ([Sample.submission 12 "A"] ++ Sample.submission 5 "A" :: [Sample.submission 12 "B"])
  = ((route Sample.ready [Sample.submission 12 "A"]).1,
     Some "no signing policy found for voting round 5")
  ∧ (route Sample.ready [Sample.submission 12 "A"]).2 = None.
Proof.
  intros route.
  apply (route_stops_at_first_missing_policy Finalizer.SubmissionItem
           Finalizer.signingPolicy Finalizer.signingPolicyStorage.t
           Finalizer.submissionStorage.t Finalizer.submissionStorage.AddError
           Finalizer.signingPolicyStorage.GetForVotingRound Finalizer.submissionStorage.Add
           Sample.ready [Sample.submission 12 "A"] [Sample.submission 12 "B"]
           (Sample.submission 5 "A")).
  - apply Forall_singleton. exists Sample.policy. reflexivity.
  - reflexivity.
Defined.

(** ** The client under the deliveries of its listeners *)

(** X20: over any interleaving of policies and submission batches, the
    policy store of the client is the one the policies alone build, in
    their order: only the policy listener writes to it; and nothing is ever
    taken off the list of the items handed to the queue. *)
Theorem Run_policy_store (c : Finalizer.client) (ds : list Finalizer.delivery) :
  Finalizer.signingPolicyStorage (Finalizer.Run c ds)
  = foldl Finalizer.signingPolicyStorage.Add (Finalizer.signingPolicyStorage c)
          (Observed.policies ds)
  ∧ ∃ q, Finalizer.queueProcessor (Finalizer.Run c ds) = Finalizer.queueProcessor c ++ q.
Proof.
  revert c. induction ds as [|d ds IH]; intros c.
  { split; [done|]. exists []. by rewrite app_nil_r. }
  unfold Finalizer.Run. cbn [foldl]. fold (Finalizer.Run (Finalizer.deliver c d) ds).
  destruct (IH (Finalizer.deliver c d)) as (Hs & q & Hq). rewrite Hs, Hq.
  destruct d as [p|slr].
  - split; [done|]. by exists q.
  - destruct (route_extends Finalizer.SubmissionItem Finalizer.signingPolicy
                Finalizer.signingPolicyStorage.t Finalizer.submissionStorage.t
                Finalizer.submissionStorage.AddError
                Finalizer.signingPolicyStorage.GetForVotingRound
                Finalizer.submissionStorage.Add (Finalizer.slr_payload slr) c)
      as (Hs' & q' & _ & Hq' & _).
    change (Observed.policies (Finalizer.Submissions slr :: ds))
      with (Observed.policies ds).
    split.
    + f_equal. exact Hs'.
    + exists (q' ++ q). rewrite app_assoc. f_equal. exact Hq'.
Qed.

(** ** The constructor of the finalizer client *)

Section StartupFacts.
Variables ChainConfig EthClient PrivateKey RelayClient SubmissionClient DB : Type.
Variables PolicyStorage SubmissionStorage : Type.
Variable DialETH : ChainConfig → EthClient + error.
Variable ReadFileToString : string → string + error.
Variable PrivateKeyFromHex : string → PrivateKey + error.
Variable NewRelayContractClient : EthClient → string → PrivateKey → RelayClient + error.
Variable NewSubmissionContractClient : string → SubmissionClient.
Variable newSigningPolicyStorage : PolicyStorage.
Variable newSubmissionStorage : SubmissionStorage.

Import Startup.

#[local] Abbreviation New :=
  (NewFinalizerClient ChainConfig EthClient PrivateKey RelayClient SubmissionClient DB
     PolicyStorage SubmissionStorage DialETH ReadFileToString PrivateKeyFromHex
     NewRelayContractClient NewSubmissionContractClient
     newSigningPolicyStorage newSubmissionStorage).

(** X21: the constructor returns neither a client nor an error exactly when
    the finalizer is disabled in the configuration, whatever the node, the
    key file and the contracts would answer; it never returns both; and a
    client it returns was built from a node that was dialled, a key that
    was read from the configured file and parsed, and a relay client made
    of the two, with new stores and a queue processor over the same
    submission store and relay client. *)
Theorem NewFinalizerClient_nil_iff_disabled
    (ctx : ClientContext ChainConfig DB) :
  let cfg := config _ _ ctx in
  (New ctx = (None, None) ↔ EnabledFinalizer _ cfg = false)
  ∧ (∀ err, (New ctx).2 = Some err → (New ctx).1 = None)
  ∧ (∀ c, (New ctx).1 = Some c →
       (New ctx).2 = None
       ∧ EnabledFinalizer _ cfg = true
       ∧ (∃ ethClient senderPkString senderPk,
            DialETH (chainConfig _ cfg) = inl ethClient
            ∧ ReadFileToString (SigningPolicyPrivateKeyFile _ cfg) = inl senderPkString
            ∧ PrivateKeyFromHex senderPkString = inl senderPk
            ∧ NewRelayContractClient ethClient (Relay _ cfg) senderPk
              = inl (relayClient _ _ _ _ _ c))
       ∧ db _ _ _ _ _ c = DB_of _ _ ctx
       ∧ signingPolicyStorage _ _ _ _ _ c = newSigningPolicyStorage
       ∧ submissionStorage _ _ _ _ _ c = newSubmissionStorage
       ∧ queueProcessor _ _ _ _ _ c
         = (submissionStorage _ _ _ _ _ c, relayClient _ _ _ _ _ c)).
Proof.
  cbv zeta. unfold NewFinalizerClient.
  destruct (EnabledFinalizer _ (config _ _ ctx)); cbn [negb].
  2:{ split; [done|]. split; [done|]. by intros c [=]. }
  destruct (DialETH _) as [ethClient|e] eqn:Ed.
  2:{ split; [split; by intros [=]|]. split; [done|]. by intros c [=]. }
  destruct (ReadFileToString _) as [senderPkString|e] eqn:Er.
  2:{ split; [split; by intros [=]|]. split; [done|]. by intros c [=]. }
  destruct (PrivateKeyFromHex _) as [senderPk|e] eqn:Eh.
  2:{ split; [split; by intros [=]|]. split; [done|]. by intros c [=]. }
  destruct (NewRelayContractClient _ _ _) as [relay|e] eqn:En.
  2:{ split; [split; by intros [=]|]. split; [done|]. by intros c [=]. }
  cbn [fst snd]. split; [split; by intros [=]|]. split; [by intros ? [=]|].
  intros c [= <-]. cbn. split_and!; try done.
  by exists ethClient, senderPkString, senderPk.
Qed.

(** X22: a failure of the constructor names its step: the errors of the
    node and of the relay client are passed on as they are, the error of
    the key file is wrapped as "error reading sender private key" and the
    error of the key parser as "error creating sender register tx opts";
    the key file is read only after the node was dialled, and the key is
    parsed only after the file was read. *)
Theorem NewFinalizerClient_error_iff
    (ctx : ClientContext ChainConfig DB) (err : error) :
  let cfg := config _ _ ctx in
  (New ctx).2 = Some err
  ↔ EnabledFinalizer _ cfg = true
    ∧ (DialETH (chainConfig _ cfg) = inr err
       ∨ ∃ ethClient,
           DialETH (chainConfig _ cfg) = inl ethClient
           ∧ ((∃ e, ReadFileToString (SigningPolicyPrivateKeyFile _ cfg) = inr e
                    ∧ err = Wrap e "error reading sender private key")
              ∨ ∃ senderPkString,
                  ReadFileToString (SigningPolicyPrivateKeyFile _ cfg) = inl senderPkString
                  ∧ ((∃ e, PrivateKeyFromHex senderPkString = inr e
                           ∧ err = Wrap e "error creating sender register tx opts")
                     ∨ ∃ senderPk,
                         PrivateKeyFromHex senderPkString = inl senderPk
                         ∧ NewRelayContractClient ethClient (Relay _ cfg) senderPk
                           = inr err))).
Proof.
  cbv zeta. unfold NewFinalizerClient.
  destruct (EnabledFinalizer _ (config _ _ ctx)); cbn [negb].
  2:{ split; [done|]. by intros [[=] _]. }
  destruct (DialETH _) as [ethClient|e] eqn:Ed; cbn [snd].
  2:{ split.
      - intros [= ->]. split; [done|]. by left.
      - intros [_ [[= ->]|(? & [=] & _)]]. done. }
  destruct (ReadFileToString _) as [senderPkString|e] eqn:Er; cbn [snd].
  2:{ split.
      - intros [= <-]. split; [done|]. right. exists ethClient. split; [done|].
        left. by exists e.
      - intros [_ [[=]|(? & _ & [(e' & [= ->] & ->)|(? & [=] & _)])]]. done. }
  destruct (PrivateKeyFromHex _) as [senderPk|e] eqn:Eh; cbn [snd].
  2:{ split.
      - intros [= <-]. split; [done|]. right. exists ethClient. split; [done|].
        right. exists senderPkString. split; [done|]. left. by exists e.
      - intros [_ [[=]|(? & _ & [(? & [=] & _)|(str & [= <-] & Hp)])]].
        rewrite Eh in Hp. destruct Hp as [(e' & [= ->] & ->)|(? & [=] & _)]. done. }
  destruct (NewRelayContractClient _ _ _) as [relay|e] eqn:En; cbn [snd].
  - split; [done|].
    intros [_ [[=]|(eth & [= <-] & [(? & [=] & _)|(str & [= <-] & Hp)])]].
    rewrite Eh in Hp. destruct Hp as [(? & [=] & _)|(pk & [= <-] & Hn)].
    rewrite En in Hn. done.
  - split.
    + intros [= ->]. split; [done|]. right. exists ethClient. split; [done|].
      right. exists senderPkString. split; [done|]. right. by exists senderPk.
    + intros [_ [[=]|(eth & [= <-] & [(? & [=] & _)|(str & [= <-] & Hp)])]].
      rewrite Eh in Hp. destruct Hp as [(? & [=] & _)|(pk & [= <-] & Hn)].
      rewrite En in Hn. by injection Hn as ->.
Qed.
End StartupFacts.
